(** * Matchmaking core of the quiz engine: [GamesRepository]

    A shallow embedding of [src/games/games.repository.ts].  The relational
    store reached through TypeORM is an explicit [Store] record of tables (rows
    kept in insertion order), every [async] method is a computation in a small
    state-and-exception monad, and the collaborators injected into the
    repository's constructor are separate definitions that the repository
    methods call.  The order in which the database lists the rows of a query
    that does not order them is not fixed by the code: it is the parameter
    [scan] of the development. *)

From Stdlib Require Import String List Arith Bool Lia PeanoNat Permutation Sorted.
Import ListNotations.
Local Open Scope list_scope.
Local Open Scope nat_scope.

Set Implicit Arguments.

(** ** Entities *)

(** [GameStatusEnum] of [enums/gameStatusEnum]. *)
Inductive GameStatusEnum : Type := pending | active | finished.

Definition status_eqb (a b : GameStatusEnum) : bool :=
  match a, b with
  | pending, pending | active, active | finished, finished => true
  | _, _ => false
  end.

(** Generated primary keys (uuid columns) are numbers handed out by the
    store's generator; user ids, logins and question bodies are strings;
    timestamps are readings of the store's clock. *)
Definition Uuid := nat.
Definition Timestamp := nat.

Record UserEntity : Type := mkUser {
  user_id : string;
  login : string
}.

Record ProgressEntity : Type := mkProgress {
  progress_id : Uuid;
  progress_userId : string;
  score : nat;
  answers : list string
}.

Record QuestionEntity : Type := mkQuestion {
  question_id : Uuid;
  body : string
}.

Record GameQuestionEntity : Type := mkGameQuestion {
  gq_id : Uuid;
  gq_gameId : Uuid;
  gq_questionId : Uuid;
  order : nat
}.

Record GameEntity : Type := mkGame {
  game_id : Uuid;
  status : GameStatusEnum;
  firstPlayerProgressId : option Uuid;
  secondPlayerProgressId : option Uuid;
  createdAt : Timestamp;
  startGameDate : option Timestamp;
  finishGameDate : option Timestamp
}.

(** ** The store *)

Record Store : Type := mkStore {
  users : list UserEntity;
  progresses : list ProgressEntity;
  questions : list QuestionEntity;
  gameQuestions : list GameQuestionEntity;
  games : list GameEntity;
  nextId : Uuid;              (* uuid generator *)
  clock : Timestamp;          (* what [new Date()] and column defaults read *)
  entropy : list nat;         (* random numbers still to be consumed *)
  questionsCount : nat        (* configured size of a game's question set *)
}.

Definition with_progresses (s : Store) (ps : list ProgressEntity) (n : Uuid) : Store :=
  mkStore (users s) ps (questions s) (gameQuestions s) (games s) n
          (clock s) (entropy s) (questionsCount s).

Definition with_gameQuestions (s : Store) (qs : list GameQuestionEntity) (n : Uuid) : Store :=
  mkStore (users s) (progresses s) (questions s) qs (games s) n
          (clock s) (entropy s) (questionsCount s).

Definition with_games (s : Store) (gs : list GameEntity) (n : Uuid) : Store :=
  mkStore (users s) (progresses s) (questions s) (gameQuestions s) gs n
          (clock s) (entropy s) (questionsCount s).

Definition with_entropy (s : Store) (e : list nat) : Store :=
  mkStore (users s) (progresses s) (questions s) (gameQuestions s) (games s)
          (nextId s) (clock s) e (questionsCount s).

(** ** Exceptions and the repository monad *)

Inductive HttpStatus : Type := BAD_REQUEST | NOT_FOUND.

Inductive Exception : Type :=
| InsufficientQuestions
| DuplicateAssignment
| TypeError
| HttpException (message : string) (code : HttpStatus).

Inductive Result (A : Type) : Type :=
| Ok (a : A)
| Throw (e : Exception).
Arguments Ok {A} a.
Arguments Throw {A} e.

(** A computation reads and writes the store; a [Throw] keeps the store as it
    was when the exception was raised: nothing here opens a transaction. *)
Definition Repo (A : Type) : Type := Store -> Result A * Store.

Definition ret {A} (a : A) : Repo A := fun s => (Ok a, s).

Definition bind {A B} (m : Repo A) (k : A -> Repo B) : Repo B :=
  fun s => match m s with
           | (Ok a, s') => k a s'
           | (Throw e, s') => (Throw e, s')
           end.

Definition throw {A} (e : Exception) : Repo A := fun s => (Throw e, s).

Definition try_catch {A} (m : Repo A) (handler : Exception -> Repo A) : Repo A :=
  fun s => match m s with
           | (Ok a, s') => (Ok a, s')
           | (Throw e, s') => handler e s'
           end.

Definition get : Repo Store := fun s => (Ok s, s).

Notation "x <- m ;; k" := (bind m (fun x => k))
  (at level 61, m at next level, right associativity).
Notation "m ;;; k" := (bind m (fun _ => k))
  (at level 61, right associativity).

(** [appMessages().errors.somethingIsWrong] *)
Definition somethingIsWrong : string := "Something is wrong"%string.

Definition somethingIsWrongException : Exception :=
  HttpException somethingIsWrong BAD_REQUEST.

(** Reading a property of [null]/[undefined] raises a [TypeError]. *)
Definition deref {A} (o : option A) : Repo A :=
  match o with
  | Some a => ret a
  | None => throw TypeError
  end.

Fixpoint mapM {A B} (f : A -> Repo B) (l : list A) : Repo (list B) :=
  match l with
  | [] => ret []
  | a :: l' => b <- f a ;; bs <- mapM f l' ;; ret (b :: bs)
  end.

(** ** Table lookups *)

Definition isSome {A} (o : option A) : bool :=
  match o with Some _ => true | None => false end.

Definition find_user (userId : string) (s : Store) : option UserEntity :=
  find (fun u => String.eqb (user_id u) userId) (users s).

Definition find_progress (id : Uuid) (s : Store) : option ProgressEntity :=
  find (fun p => progress_id p =? id) (progresses s).

Definition find_question (id : Uuid) (s : Store) : option QuestionEntity :=
  find (fun q => question_id q =? id) (questions s).

Definition find_game (id : Uuid) (s : Store) : option GameEntity :=
  find (fun g => game_id g =? id) (games s).

(** The [GameQuestion] rows of one game, in table order. *)
Definition game_rows (gameId : Uuid) (s : Store) : list GameQuestionEntity :=
  filter (fun r => gq_gameId r =? gameId) (gameQuestions s).

(** ** The order of a result

    SQL fixes the order of the rows of a result only where the query orders
    them.  A [Scan] stands for the order the database happens to produce:
    [reorder scan rows] lists [rows] by taking, for each number of [scan] in
    turn, the entry of the remaining rows that it points at, and then the
    rest in table order.  The empty scan gives table order, and every
    arrangement of the rows is given by some scan ([reorder_complete]). *)
Definition Scan : Type := list nat.

Fixpoint remove_nth {A} (i : nat) (l : list A) : list A :=
  match l with
  | [] => []
  | x :: l' => match i with 0 => l' | S i' => x :: remove_nth i' l' end
  end.

Fixpoint reorder {A} (scan : Scan) (rows : list A) : list A :=
  match scan with
  | [] => rows
  | k :: scan' =>
      match rows with
      | [] => []
      | r0 :: _ =>
          let i := k mod length rows in
          nth i rows r0 :: reorder scan' (remove_nth i rows)
      end
  end.

Definition table_order : Scan := [].

(** ** Entities with their relations loaded

    [findOne({ where: { id }, relations: { questions, firstPlayerProgress,
    secondPlayerProgress } })] yields the game row with its relations resolved
    by lookup; a progress comes with its owning user and a game question with
    its question, each absent when the referenced row is. *)

Record ProgressRel : Type := mkProgressRel {
  pr_row : ProgressEntity;
  pr_user : option UserEntity
}.

Record GameQuestionRel : Type := mkGameQuestionRel {
  gqr_row : GameQuestionEntity;
  gqr_question : option QuestionEntity
}.

Record GameRel : Type := mkGameRel {
  gr_game : GameEntity;
  gr_questions : list GameQuestionRel;
  gr_firstPlayerProgress : option ProgressRel;
  gr_secondPlayerProgress : option ProgressRel
}.

(** The [GameQuestion] rows of one game, each with its question, in table
    order. *)
Definition questions_of_game (s : Store) (gameId : Uuid) : list GameQuestionRel :=
  map (fun r => mkGameQuestionRel r (find_question (gq_questionId r) s))
      (game_rows gameId s).

Section Repository.

(** The order in which the database lists rows where the query fixes none.
    Every definition and statement below holds for each [scan]. *)
Variable scan : Scan.

(** [getRawOne()]: the first row of the result as the database lists it. *)
Definition getRawOne {A} (rows : list A) : option A := hd_error (reorder scan rows).

Definition load_progress (s : Store) (id : option Uuid) : option ProgressRel :=
  match id with
  | None => None
  | Some i =>
      match find_progress i s with
      | None => None
      | Some p => Some (mkProgressRel p (find_user (progress_userId p) s))
      end
  end.

(** The [questions] relation of a game: [findOne] orders the joined rows of
    a relation in no way, so they come as the database lists them. *)
Definition load_questions (s : Store) (gameId : Uuid) : list GameQuestionRel :=
  reorder scan (questions_of_game s gameId).

Definition load_game (s : Store) (g : GameEntity) : GameRel :=
  mkGameRel g
            (load_questions s (game_id g))
            (load_progress s (firstPlayerProgressId g))
            (load_progress s (secondPlayerProgressId g)).

(** [IExtendedGame]: the raw game row with the first player's [userId]
    selected next to it and the [questions] key. *)
Record IExtendedGame : Type := mkIExtendedGame {
  ieg_game : GameEntity;
  ieg_userId : option string;
  ieg_questions : option (list GameQuestionRel)
}.

(** The response objects the repository assembles. *)
Record PlayerView : Type := mkPlayerView {
  player_id : Uuid;
  player_login : string
}.

Record ProgressView : Type := mkProgressView {
  pv_answers : list string;
  pv_player : PlayerView;
  pv_score : nat
}.

Record QuestionView : Type := mkQuestionView {
  qv_id : Uuid;
  qv_body : string
}.

Record GameView : Type := mkGameView {
  gv_id : Uuid;
  gv_questions : option (list QuestionView);
  gv_status : GameStatusEnum;
  gv_firstPlayerProgress : ProgressView;
  gv_secondPlayerProgress : option ProgressView;
  gv_pairCreatedDate : Timestamp;
  gv_startGameDate : option Timestamp;
  gv_finishGameDate : option Timestamp
}.

(** ** Injected collaborators *)

(** Modelled from the spec: [ProgressesRepository.createProgress] is not among
    the sources.  "createProgress(userId) -> Progress: initializes score = 0,
    empty answer sequence.  Pure creation, no game linkage."  The row gets the
    next generated id; the result type is the nullable one the repository's
    callers test for. *)
Definition createProgress (userId : string) : Repo (option ProgressEntity) :=
  fun s =>
    let p := mkProgress (nextId s) userId 0 [] in
    (Ok (Some p), with_progresses s (progresses s ++ [p]) (S (nextId s))).

Definition next_random (e : list nat) : nat * list nat :=
  match e with
  | [] => (0, [])
  | r :: e' => (r, e')
  end.

(** Sampling without replacement: each draw takes the entry of the remaining
    pool that the next random number points at. *)
Fixpoint draw (n : nat) (pool : list QuestionEntity) (e : list nat)
  : list QuestionEntity * list nat :=
  match n with
  | 0 => ([], e)
  | S n' =>
      match pool with
      | [] => ([], e)
      | q0 :: _ =>
          let (r, e1) := next_random e in
          let i := r mod length pool in
          let (rest, e2) := draw n' (remove_nth i pool) e1 in
          (nth i pool q0 :: rest, e2)
      end
  end.

(** Modelled from the spec: [GetRandomQuestionsForGameUseCase.execute] is not
    among the sources.  "drawQuestions(count): samples count distinct
    questions uniformly at random from the active question pool, without
    replacement; fails with InsufficientQuestions if the pool has fewer than
    count entries."  The random choices are read off the store's [entropy]. *)
Definition getRandomQuestionsForGame : Repo (list QuestionEntity) :=
  fun s =>
    if length (questions s) <? questionsCount s
    then (Throw InsufficientQuestions, s)
    else let (qs, e) := draw (questionsCount s) (questions s) (entropy s) in
         (Ok qs, with_entropy s e).

(** One [GameQuestion] row per drawn question, [order] being the draw
    position counted from [pos]. *)
Fixpoint stamp (gameId : Uuid) (qs : list QuestionEntity) (pos : nat) (id0 : Uuid)
  : list GameQuestionEntity :=
  match qs with
  | [] => []
  | q :: qs' =>
      mkGameQuestion id0 gameId (question_id q) pos :: stamp gameId qs' (S pos) (S id0)
  end.

(** Modelled from the spec: [SetRandomQuestionsForGameUseCase.execute] is not
    among the sources.  "assignQuestions(gameId, questions): persists the
    GameQuestion associations with order equal to draw position (0-indexed),
    in a single batch write.  Must be called exactly once per game; calling it
    twice for the same game is a programmer error (DuplicateAssignment) and
    must not silently append." *)
Definition setRandomQuestionsForGame (qs : list QuestionEntity) (gameId : Uuid)
  : Repo unit :=
  fun s =>
    if existsb (fun r => gq_gameId r =? gameId) (gameQuestions s)
    then (Throw DuplicateAssignment, s)
    else (Ok tt,
          with_gameQuestions s (gameQuestions s ++ stamp gameId qs 0 (nextId s))
                             (nextId s + length qs)).

(** ** Repository methods *)

(** The subquery [SELECT progress.userId FROM progress WHERE
    game.firstPlayerProgressId = progress.id]. *)
Definition first_player_userId (s : Store) (g : GameEntity) : option string :=
  match firstPlayerProgressId g with
  | None => None
  | Some i => option_map progress_userId (find_progress i s)
  end.

(** The [WHERE] clause of [getGameInPendingSecondPalyer]:
    [game.status = 'pending' AND game.firstPlayerProgressId IS NOT NULL]. *)
Definition pending_with_first_player (g : GameEntity) : bool :=
  status_eqb (status g) pending && isSome (firstPlayerProgressId g).

(** The query has no [ORDER BY]: which of the matching rows [getRawOne()]
    returns is the database's choice. *)
Definition getGameInPendingSecondPalyer : Repo (option IExtendedGame) :=
  try_catch
    (s <- get ;;
     match getRawOne (filter pending_with_first_player (games s)) with
     | None => ret None
     | Some existedGame =>
         ret (Some (mkIExtendedGame existedGame (first_player_userId s existedGame) None))
     end)
    (fun _ => throw somethingIsWrongException).

Definition getExtendedGameById (id : Uuid) : Repo (option GameRel) :=
  try_catch
    (s <- get ;; ret (option_map (load_game s) (find_game id s)))
    (fun _ => throw somethingIsWrongException).

(** The [UPDATE game SET ... WHERE id = :id] of [connectToGame].  A key whose
    value is [undefined] ([progress?.id] on a null progress) is left out of
    the [SET] list, so the column keeps its value. *)
Definition activate (progressId : option Uuid) (now : Timestamp) (g : GameEntity)
  : GameEntity :=
  mkGame (game_id g)
         active
         (firstPlayerProgressId g)
         (match progressId with
          | Some i => Some i
          | None => secondPlayerProgressId g
          end)
         (createdAt g)
         (Some now)
         (finishGameDate g).

Definition update_game (id : Uuid) (progressId : option Uuid) : Repo unit :=
  fun s =>
    (Ok tt,
     with_games s
       (map (fun g => if game_id g =? id then activate progressId (clock s) g else g)
            (games s))
       (nextId s)).

(** [.sort((a, b) => a.order - b.order)]: a stable sort on [order]. *)
Fixpoint insert_by_order (x : GameQuestionRel) (l : list GameQuestionRel)
  : list GameQuestionRel :=
  match l with
  | [] => [x]
  | y :: l' =>
      if order (gqr_row x) <=? order (gqr_row y)
      then x :: y :: l'
      else y :: insert_by_order x l'
  end.

Definition sort_by_order (l : list GameQuestionRel) : list GameQuestionRel :=
  fold_right insert_by_order [] l.

(** [{ id: question.id, body: question.question.body }] *)
Definition prepare_question (question : GameQuestionRel) : Repo QuestionView :=
  q <- deref (gqr_question question) ;;
  ret (mkQuestionView (gq_id (gqr_row question)) (body q)).

(** [{ answers: [], player: { id: p.id, login: p.user.login }, score: p.score }] *)
Definition progress_view (p : option ProgressRel) : Repo ProgressView :=
  pr <- deref p ;;
  u <- deref (pr_user pr) ;;
  ret (mkProgressView [] (mkPlayerView (progress_id (pr_row pr)) (login u))
                      (score (pr_row pr))).

Definition connectToGame (userId : string) (existedGame : IExtendedGame)
  : Repo (option GameView) :=
  try_catch
    (progress <- createProgress userId ;;
     questions <- getRandomQuestionsForGame ;;
     setRandomQuestionsForGame questions (game_id (ieg_game existedGame)) ;;;
     update_game (game_id (ieg_game existedGame)) (option_map progress_id progress) ;;;
     game <- getExtendedGameById (game_id (ieg_game existedGame)) ;;
     match game with
     | None => ret None
     | Some game =>
         preparedQuestions <- mapM prepare_question (sort_by_order (gr_questions game)) ;;
         firstPlayerProgress <- progress_view (gr_firstPlayerProgress game) ;;
         secondPlayerProgress <- progress_view (gr_secondPlayerProgress game) ;;
         ret (Some (mkGameView (game_id (gr_game game))
                               (Some preparedQuestions)
                               (status (gr_game game))
                               firstPlayerProgress
                               (Some secondPlayerProgress)
                               (createdAt (gr_game game))
                               (startGameDate (gr_game game))
                               (finishGameDate (gr_game game))))
     end)
    (fun _ => throw somethingIsWrongException).

(** The [INSERT INTO game (status, firstPlayerProgressId)] of [createGame];
    the id is generated and [createdAt] takes its column default. *)
Definition insert_game (firstPlayerProgressId : Uuid) : Repo Uuid :=
  fun s =>
    let newGame :=
      mkGame (nextId s) pending (Some firstPlayerProgressId) None (clock s) None None in
    (Ok (nextId s), with_games s (games s ++ [newGame]) (S (nextId s))).

Definition createGame (userId : string) : Repo (option GameView) :=
  try_catch
    (firstUserProgress <- createProgress userId ;;
     match firstUserProgress with
     | None => ret None
     | Some firstUserProgress =>
         newGameId <- insert_game (progress_id firstUserProgress) ;;
         game <- getExtendedGameById newGameId ;;
         match game with
         | None => ret None
         | Some game =>
             firstPlayerProgress <- progress_view (gr_firstPlayerProgress game) ;;
             ret (Some (mkGameView (game_id (gr_game game))
                                   None
                                   (status (gr_game game))
                                   firstPlayerProgress
                                   None
                                   (createdAt (gr_game game))
                                   (startGameDate (gr_game game))
                                   (finishGameDate (gr_game game))))
         end
     end)
    (fun _ => throw somethingIsWrongException).

(** ** Runs of the matchmaker *)

Inductive Call : Type :=
| CreateGame (userId : string)
| JoinGame (userId : string) (existedGame : IExtendedGame).

Definition exec (c : Call) (s : Store) : Store :=
  match c with
  | CreateGame userId => snd (createGame userId s)
  | JoinGame userId existedGame => snd (connectToGame userId existedGame s)
  end.

(** A store before any game was played: reference data only. *)
Definition initial (s : Store) : Prop :=
  progresses s = [] /\ gameQuestions s = [] /\ games s = [].

(** The stores the matchmaker gets to by [createGame] and [connectToGame]
    calls, whatever their arguments and whether or not they throw. *)
Inductive reachable : Store -> Prop :=
| reachable_initial s : initial s -> reachable s
| reachable_exec c s : reachable s -> reachable (exec c s).

(** ** The stages of an activation

    The stores [connectToGame] goes through, named so that statements can
    refer to them. *)

Definition new_progress (userId : string) (s : Store) : ProgressEntity :=
  mkProgress (nextId s) userId 0 [].

(** After [createProgress]. *)
Definition store_progress (userId : string) (s : Store) : Store :=
  with_progresses s (progresses s ++ [new_progress userId s]) (S (nextId s)).

(** After the draw. *)
Definition store_drawn (userId : string) (s : Store) : Store :=
  with_entropy (store_progress userId s)
               (snd (draw (questionsCount s) (questions s) (entropy s))).

Definition drawn_questions (s : Store) : list QuestionEntity :=
  fst (draw (questionsCount s) (questions s) (entropy s)).

Definition new_rows (gameId : Uuid) (s : Store) : list GameQuestionEntity :=
  stamp gameId (drawn_questions s) 0 (S (nextId s)).

(** After the question assignment. *)
Definition store_assigned (userId : string) (gameId : Uuid) (s : Store) : Store :=
  with_gameQuestions (store_drawn userId s)
                     (gameQuestions s ++ new_rows gameId s)
                     (S (nextId s) + length (drawn_questions s)).

Definition activated_games (gameId : Uuid) (s : Store) : list GameEntity :=
  map (fun g => if game_id g =? gameId
                then activate (Some (nextId s)) (clock s) g
                else g)
      (games s).

(** After the [UPDATE]. *)
Definition store_activated (userId : string) (gameId : Uuid) (s : Store) : Store :=
  with_games (store_assigned userId gameId s)
             (activated_games gameId s)
             (S (nextId s) + length (drawn_questions s)).

(** What [connectToGame] answers once the [UPDATE] is done: the re-read game
    turned into the response object. *)
Definition assemble (game : option GameRel) : Repo (option GameView) :=
  match game with
  | None => ret None
  | Some game =>
      preparedQuestions <- mapM prepare_question (sort_by_order (gr_questions game)) ;;
      firstPlayerProgress <- progress_view (gr_firstPlayerProgress game) ;;
      secondPlayerProgress <- progress_view (gr_secondPlayerProgress game) ;;
      ret (Some (mkGameView (game_id (gr_game game))
                            (Some preparedQuestions)
                            (status (gr_game game))
                            firstPlayerProgress
                            (Some secondPlayerProgress)
                            (createdAt (gr_game game))
                            (startGameDate (gr_game game))
                            (finishGameDate (gr_game game))))
  end.

(** The row [createGame] inserts, and the store it leaves. *)
Definition new_game (s : Store) : GameEntity :=
  mkGame (S (nextId s)) pending (Some (nextId s)) None (clock s) None None.

Definition store_created (userId : string) (s : Store) : Store :=
  with_games (store_progress userId s) (games s ++ [new_game s]) (S (S (nextId s))).

Definition succeeded {A} (r : Result (option A)) : Prop :=
  exists a, r = Ok (Some a).


(** The data-model invariant on one game row. *)
Definition game_ok (g : GameEntity) : Prop :=
  firstPlayerProgressId g <> None /\
  ((status g = pending /\ secondPlayerProgressId g = None) \/
   (status g = active /\ secondPlayerProgressId g <> None)).

(** Generated ids are below the generator. *)
Definition ids_fresh (s : Store) : Prop :=
  (forall g, In g (games s) -> game_id g < nextId s) /\
  (forall p, In p (progresses s) -> progress_id p < nextId s).

(** The rows of every game carry the orders 0, 1, 2, ... in table order. *)
Definition rows_ordered (s : Store) : Prop :=
  forall gameId,
    map order (game_rows gameId s) = seq 0 (length (game_rows gameId s)).

Definition store_inv (s : Store) : Prop :=
  (forall g, In g (games s) -> game_ok g) /\ ids_fresh s /\ rows_ordered s.


(** A computation that leaves the store as it found it. *)
Definition read_only {A} (m : Repo A) : Prop := forall s, snd (m s) = s.

Definition exec_all (cs : list Call) (s : Store) : Store :=
  fold_left (fun t c => exec c t) cs s.

(** ** Two calls in flight

    Between two awaits a call holds nothing: another request may run.  An
    [Attempt] is a [connectToGame] call stopped at one of its awaits, with
    the values it has bound so far; [attempt_step] runs it up to the next
    await, each awaited operation being one access to the store, and [race]
    lets two attempts on the same snapshot take their steps in the order a
    schedule gives. *)

Inductive Attempt : Type :=
| AtCreateProgress
| AtDraw (progress : option ProgressEntity)
| AtAssign (progress : option ProgressEntity) (questions : list QuestionEntity)
| AtUpdate (progress : option ProgressEntity)
| AtReadBack
| Returned (r : Result (option GameView)).

Definition resume {A} (x : Result A * Store) (k : A -> Attempt) : Attempt * Store :=
  match x with
  | (Ok a, s') => (k a, s')
  | (Throw _, s') => (Returned (Throw somethingIsWrongException), s')
  end.

Definition attempt_step (userId : string) (existedGame : IExtendedGame)
           (a : Attempt) (s : Store) : Attempt * Store :=
  let gameId := game_id (ieg_game existedGame) in
  match a with
  | AtCreateProgress => resume (createProgress userId s) AtDraw
  | AtDraw progress => resume (getRandomQuestionsForGame s) (AtAssign progress)
  | AtAssign progress questions =>
      resume (setRandomQuestionsForGame questions gameId s) (fun _ => AtUpdate progress)
  | AtUpdate progress =>
      resume (update_game gameId (option_map progress_id progress) s) (fun _ => AtReadBack)
  | AtReadBack =>
      resume ((game <- getExtendedGameById gameId ;; assemble game) s)
             (fun r => Returned (Ok r))
  | Returned r => (Returned r, s)
  end.

Fixpoint attempt_run (n : nat) (userId : string) (existedGame : IExtendedGame)
         (a : Attempt) (s : Store) : Attempt * Store :=
  match n with
  | 0 => (a, s)
  | S n' =>
      let (a', s') := attempt_step userId existedGame a s in
      attempt_run n' userId existedGame a' s'
  end.











(** ** The other queries of the repository *)

(** [getById]: the game row alone, with the columns the query selects. *)
Definition getById (id : Uuid) : Repo (option GameEntity) :=
  try_catch
    (s <- get ;; ret (find_game id s))
    (fun _ => throw somethingIsWrongException).

(** The user a progress link leads to: the join of a game with one of its
    progress relations, read at [userId]. *)
Definition player_userId (s : Store) (progressId : option Uuid) : option string :=
  match progressId with
  | None => None
  | Some i => option_map progress_userId (find_progress i s)
  end.

Definition played_by (userId : string) (s : Store) (progressId : option Uuid) : bool :=
  match player_userId s progressId with
  | Some u => String.eqb u userId
  | None => false
  end.

(** [where: { status: pending, firstPlayerProgress: { userId } }] *)
Definition pending_of_user (userId : string) (s : Store) (g : GameEntity) : bool :=
  status_eqb (status g) pending && played_by userId s (firstPlayerProgressId g).

(** What [getMyCurrentGameInPendingSecondPalyer] spreads into its answer: the
    game row, [questions: null] and the [userId] it was asked for, next to
    the loaded [firstPlayerProgress] relation. *)
Record PendingGameOfUser : Type := mkPendingGameOfUser {
  pgu_slot : IExtendedGame;
  pgu_firstPlayerProgress : option ProgressRel
}.

(** [findOne] with a relation joined pages the query by primary key: of
    several matching rows it returns the one with the least id. *)
Fixpoint least_id (l : list GameEntity) : option GameEntity :=
  match l with
  | [] => None
  | g :: l' =>
      match least_id l' with
      | None => Some g
      | Some h => if game_id g <=? game_id h then Some g else Some h
      end
  end.

Definition find_one (f : GameEntity -> bool) (l : list GameEntity) : option GameEntity :=
  least_id (filter f l).

Definition getMyCurrentGameInPendingSecondPalyer (userId : string)
  : Repo (option PendingGameOfUser) :=
  try_catch
    (s <- get ;;
     match find_one (pending_of_user userId s) (games s) with
     | None => ret None
     | Some existedGame =>
         ret (Some (mkPendingGameOfUser
                      (mkIExtendedGame existedGame (Some userId) None)
                      (load_progress s (firstPlayerProgressId existedGame))))
     end)
    (fun _ => throw somethingIsWrongException).

(** [where: [{ status: active, firstPlayerProgress: { userId } },
             { status: active, secondPlayerProgress: { userId } }]] *)
Definition active_of_user (userId : string) (s : Store) (g : GameEntity) : bool :=
  (status_eqb (status g) active && played_by userId s (firstPlayerProgressId g))
  || (status_eqb (status g) active && played_by userId s (secondPlayerProgressId g)).

Definition getActiveGameOfUser (userId : string) : Repo (option GameRel) :=
  try_catch
    (s <- get ;;
     match find_one (active_of_user userId s) (games s) with
     | None => ret None
     | Some game => ret (Some (load_game s game))
     end)
    (fun _ => throw somethingIsWrongException).

(** ** Invariants and orders used below *)

(** What a call may do to a game row that was there before it. *)
Definition row_kept (g g' : GameEntity) : Prop :=
  game_id g' = game_id g /\
  firstPlayerProgressId g' = firstPlayerProgressId g /\
  createdAt g' = createdAt g /\
  finishGameDate g' = finishGameDate g /\
  (g' = g \/ status g' = active).

(** Keys are unique and every reference leads to a row. *)
Definition references_resolve (s : Store) : Prop :=
  NoDup (map game_id (games s)) /\
  NoDup (map progress_id (progresses s)) /\
  (forall g p, In g (games s) ->
     firstPlayerProgressId g = Some p \/ secondPlayerProgressId g = Some p ->
     exists pr, In pr (progresses s) /\ progress_id pr = p) /\
  (forall r, In r (gameQuestions s) ->
     exists q, In q (questions s) /\ question_id q = gq_questionId r).

Definition order_le (a b : GameQuestionRel) : Prop :=
  order (gqr_row a) <= order (gqr_row b).

Definition order_lt (a b : GameQuestionRel) : Prop :=
  order (gqr_row a) < order (gqr_row b).

Definition link_list (link : option Uuid) : list Uuid :=
  match link with Some p => [p] | None => [] end.

(** The progress ids a game row links, first player first. *)
Definition progress_links (g : GameEntity) : list Uuid :=
  link_list (firstPlayerProgressId g) ++ link_list (secondPlayerProgressId g).

Definition all_progress_links (s : Store) : list Uuid :=
  flat_map progress_links (games s).

(** ** Sample stores *)

Definition alice : string := "user-alice"%string.
Definition bob : string := "user-bob"%string.
Definition carol : string := "user-carol"%string.

Definition sample_users : list UserEntity :=
  [mkUser alice "alice"%string; mkUser bob "bob"%string; mkUser carol "carol"%string].

Definition sample_questions : list QuestionEntity :=
  [mkQuestion 1 "2 + 2 = ?"%string; mkQuestion 2 "3 * 3 = ?"%string;
   mkQuestion 3 "10 / 2 = ?"%string; mkQuestion 4 "7 - 4 = ?"%string;
   mkQuestion 5 "6 + 7 = ?"%string].

(** No game yet, five questions in the pool, five questions per game. *)
Definition store_empty : Store :=
  mkStore sample_users [] sample_questions [] [] 100 7 [3; 1; 4; 1; 5; 9; 2; 6] 5.

(** Alice has created the pending game 101. *)
Definition store_alice_waiting : Store := exec (CreateGame alice) store_empty.

(** The open slot as [getGameInPendingSecondPalyer] reports it there. *)
Definition slot_101 : IExtendedGame :=
  mkIExtendedGame (mkGame 101 pending (Some 100) None 7 None None) (Some alice) None.

(** Bob has joined game 101. *)
Definition store_bob_joined : Store := exec (JoinGame bob slot_101) store_alice_waiting.

(** Alice waiting in a deployment whose pool holds two questions only. *)
Definition store_small_pool : Store :=
  exec (CreateGame alice)
       (mkStore sample_users []
                [mkQuestion 1 "2 + 2 = ?"%string; mkQuestion 2 "3 * 3 = ?"%string]
                [] [] 100 7 [3; 1; 4] 5).

(** Alice and Carol both waiting, in games 101 and 103. *)
Definition store_two_waiting : Store := exec (CreateGame carol) store_alice_waiting.


(** * Properties *)

Lemma status_eqb_eq a b : status_eqb a b = true <-> a = b.
Proof. destruct a, b; simpl; split; congruence. Qed.

Lemma find_app_none {A} (f : A -> bool) l1 l2 :
  find f l1 = None -> find f (l1 ++ l2) = find f l2.
Proof.
  induction l1 as [|x l1 IH]; simpl; [reflexivity|].
  destruct (f x); [discriminate | exact IH].
Qed.

Lemma find_app_some {A} (f : A -> bool) l1 l2 a :
  find f l1 = Some a -> find f (l1 ++ l2) = Some a.
Proof.
  induction l1 as [|x l1 IH]; simpl; [discriminate|].
  destruct (f x); [trivial | exact IH].
Qed.

Lemma find_none_iff {A} (f : A -> bool) l :
  find f l = None <-> forall x, In x l -> f x = false.
Proof.
  split.
  - apply find_none.
  - induction l as [|x l IH]; simpl; intros H; [reflexivity|].
    rewrite (H x (or_introl eq_refl)). apply IH. intros y Hy. apply H. now right.
Qed.

Lemma existsb_false_filter {A} (f : A -> bool) l :
  existsb f l = false <-> filter f l = [].
Proof.
  induction l as [|x l IH]; simpl; [tauto|].
  destruct (f x); simpl; [split; discriminate | exact IH].
Qed.

Lemma draw_length n : forall pool e,
  n <= length pool -> length (fst (draw n pool e)) = n.
Proof.
  induction n as [|n IH]; intros pool e Hn; simpl; [reflexivity|].
  destruct pool as [|q0 pool]; [simpl in Hn; lia|].
  destruct (next_random e) as [r e1].
  set (i := r mod length (q0 :: pool)).
  destruct (draw n (remove_nth i (q0 :: pool)) e1) as [rest e2] eqn:E.
  simpl. f_equal.
  change rest with (fst (rest, e2)). rewrite <- E. apply IH.
  assert (Hi : i < length (q0 :: pool)) by (apply Nat.mod_upper_bound; simpl; lia).
  assert (Hr : forall (l : list QuestionEntity) j, j < length l ->
                 length (remove_nth j l) = pred (length l)).
  { induction l as [|x l IHl]; intros j Hj; simpl in *; [lia|].
    destruct j; [reflexivity|]. simpl. rewrite IHl by lia. lia. }
  rewrite Hr by exact Hi. simpl in *. lia.
Qed.

Lemma stamp_length gameId qs : forall pos id0,
  length (stamp gameId qs pos id0) = length qs.
Proof. induction qs as [|q qs IH]; intros; simpl; [|rewrite IH]; reflexivity. Qed.

Lemma stamp_order gameId qs : forall pos id0,
  map order (stamp gameId qs pos id0) = seq pos (length qs).
Proof. induction qs as [|q qs IH]; intros; simpl; [|rewrite IH]; reflexivity. Qed.

Lemma stamp_filter_same gameId qs : forall pos id0,
  filter (fun r => gq_gameId r =? gameId) (stamp gameId qs pos id0)
  = stamp gameId qs pos id0.
Proof.
  induction qs as [|q qs IH]; intros; simpl; [reflexivity|].
  rewrite Nat.eqb_refl, IH. reflexivity.
Qed.

Lemma stamp_filter_other gameId other qs : forall pos id0,
  other <> gameId ->
  filter (fun r => gq_gameId r =? other) (stamp gameId qs pos id0) = [].
Proof.
  induction qs as [|q qs IH]; intros pos id0 H; simpl; [reflexivity|].
  destruct (Nat.eqb_spec gameId other); [congruence|]. now apply IH.
Qed.

(** ** Rearranged rows *)

Lemma nth_remove_nth_perm {A} (l : list A) : forall i d,
  i < length l -> Permutation (nth i l d :: remove_nth i l) l.
Proof.
  induction l as [|x l IH]; intros i d Hi; cbn in Hi; [lia|].
  destruct i as [|i]; cbn [nth remove_nth]; [reflexivity|].
  rewrite perm_swap. apply perm_skip. apply IH. lia.
Qed.

Lemma reorder_perm {A} (sc : Scan) : forall rows : list A,
  Permutation (reorder sc rows) rows.
Proof.
  induction sc as [|k sc IH]; intros rows; cbn [reorder]; [reflexivity|].
  destruct rows as [|r0 rows]; [reflexivity|].
  set (i := k mod length (r0 :: rows)).
  transitivity (nth i (r0 :: rows) r0 :: remove_nth i (r0 :: rows)).
  - apply perm_skip, IH.
  - apply nth_remove_nth_perm. apply Nat.mod_upper_bound. cbn. lia.
Qed.

Lemma reorder_In {A} (sc : Scan) (rows : list A) x :
  In x (reorder sc rows) <-> In x rows.
Proof.
  split; apply Permutation_in; [|symmetry]; apply reorder_perm.
Qed.

Lemma reorder_length {A} (sc : Scan) (rows : list A) :
  length (reorder sc rows) = length rows.
Proof. apply Permutation_length, reorder_perm. Qed.

(** No arrangement of the rows is left out. *)
Lemma reorder_complete {A} (arranged : list A) : forall rows,
  Permutation arranged rows -> exists sc, reorder sc rows = arranged.
Proof.
  induction arranged as [|x arranged IH]; intros rows Hp.
  - apply Permutation_nil in Hp. subst rows. exists []. reflexivity.
  - assert (Hin : In x rows) by (apply (Permutation_in _ Hp); now left).
    destruct (In_nth rows x x Hin) as [i [Hi Hx]].
    pose proof (nth_remove_nth_perm rows x Hi) as Hq. rewrite Hx in Hq.
    assert (Hrest : Permutation arranged (remove_nth i rows)).
    { apply Permutation_cons_inv with x. now rewrite Hq. }
    destruct (IH _ Hrest) as [sc Hsc]. exists (i :: sc).
    destruct rows as [|r0 rows]; [destruct Hin|].
    cbn [reorder]. rewrite Nat.mod_small by exact Hi. rewrite Hsc. f_equal.
    transitivity (nth i (r0 :: rows) x); [now apply nth_indep | exact Hx].
Qed.

Lemma getRawOne_some {A} (rows : list A) r : getRawOne rows = Some r -> In r rows.
Proof.
  unfold getRawOne. intros H. apply (reorder_In scan).
  destruct (reorder scan rows); [discriminate|]. injection H as ->. now left.
Qed.

Lemma getRawOne_none {A} (rows : list A) : getRawOne rows = None -> rows = [].
Proof.
  unfold getRawOne. intros H. pose proof (reorder_perm scan rows) as Hp.
  destruct (reorder scan rows); [|discriminate]. now apply Permutation_nil in Hp.
Qed.

Lemma getRawOne_filter_some {A} (f : A -> bool) l g :
  getRawOne (filter f l) = Some g -> In g l /\ f g = true.
Proof. intros H. apply getRawOne_some in H. now apply filter_In in H. Qed.

Lemma getRawOne_filter_none {A} (f : A -> bool) l :
  getRawOne (filter f l) = None -> forall x, In x l -> f x = false.
Proof.
  intros H x Hin. apply getRawOne_none in H. destruct (f x) eqn:E; [|reflexivity].
  assert (Hx : In x (filter f l)) by (apply filter_In; auto).
  rewrite H in Hx. destruct Hx.
Qed.

(** ** Reads leave the store alone *)

Lemma read_only_ret {A} (a : A) : read_only (ret a).
Proof. intros s. reflexivity. Qed.

Lemma read_only_throw {A} e : read_only (@throw A e).
Proof. intros s. reflexivity. Qed.

Lemma read_only_bind {A B} (m : Repo A) (k : A -> Repo B) :
  read_only m -> (forall a, read_only (k a)) -> read_only (bind m k).
Proof.
  intros Hm Hk s. unfold bind. specialize (Hm s).
  destruct (m s) as [[a|e] s']; simpl in *; subst; [apply Hk | reflexivity].
Qed.

Lemma read_only_try_catch {A} (m : Repo A) h :
  read_only m -> (forall e, read_only (h e)) -> read_only (try_catch m h).
Proof.
  intros Hm Hh s. unfold try_catch. specialize (Hm s).
  destruct (m s) as [[a|e] s']; simpl in *; subst; [reflexivity | apply Hh].
Qed.

Lemma read_only_deref {A} (o : option A) : read_only (deref o).
Proof. destruct o; [apply read_only_ret | apply read_only_throw]. Qed.

Lemma read_only_get : read_only get.
Proof. intros s. reflexivity. Qed.

Lemma read_only_mapM {A B} (f : A -> Repo B) l :
  (forall a, read_only (f a)) -> read_only (mapM f l).
Proof.
  intros Hf. induction l as [|a l IH]; simpl; [apply read_only_ret|].
  apply read_only_bind; [apply Hf|]. intros b.
  apply read_only_bind; [exact IH|]. intros bs. apply read_only_ret.
Qed.

Lemma read_only_prepare_question q : read_only (prepare_question q).
Proof.
  unfold prepare_question. apply read_only_bind; [apply read_only_deref|].
  intros a. apply read_only_ret.
Qed.

Lemma read_only_progress_view p : read_only (progress_view p).
Proof.
  unfold progress_view. apply read_only_bind; [apply read_only_deref|]. intros pr.
  apply read_only_bind; [apply read_only_deref|]. intros u. apply read_only_ret.
Qed.

Lemma read_only_getExtendedGameById id : read_only (getExtendedGameById id).
Proof.
  unfold getExtendedGameById. apply read_only_try_catch.
  - apply read_only_bind; [apply read_only_get|]. intros s. apply read_only_ret.
  - intros e. apply read_only_throw.
Qed.

Lemma read_only_getGameInPendingSecondPalyer : read_only getGameInPendingSecondPalyer.
Proof.
  unfold getGameInPendingSecondPalyer. apply read_only_try_catch.
  - apply read_only_bind; [apply read_only_get|]. intros s.
    destruct (getRawOne (filter pending_with_first_player (games s))); apply read_only_ret.
  - intros e. apply read_only_throw.
Qed.

Lemma getGameInPendingSecondPalyer_run s :
  getGameInPendingSecondPalyer s
  = (Ok (option_map (fun g => mkIExtendedGame g (first_player_userId s g) None)
                    (getRawOne (filter pending_with_first_player (games s)))),
     s).
Proof.
  unfold getGameInPendingSecondPalyer, try_catch, bind, get.
  destruct (getRawOne (filter pending_with_first_player (games s))); reflexivity.
Qed.

Lemma getExtendedGameById_run id s :
  getExtendedGameById id s = (Ok (option_map (load_game s) (find_game id s)), s).
Proof. reflexivity. Qed.

Lemma find_game_activated gameId l pid now :
  find (fun g => game_id g =? gameId)
       (map (fun g => if game_id g =? gameId then activate pid now g else g) l)
  = option_map (activate pid now) (find (fun g => game_id g =? gameId) l).
Proof.
  induction l as [|x l IH]; simpl; [reflexivity|].
  destruct (game_id x =? gameId) eqn:E; simpl; rewrite E; [reflexivity | exact IH].
Qed.

Lemma assemble_cases (game : option GameRel) (t : Store) :
  snd (assemble game t) = t /\
  match game with
  | None => fst (assemble game t) = Ok None
  | Some game' =>
      (exists e, fst (assemble game t) = Throw e) \/
      (exists v, fst (assemble game t) = Ok (Some v) /\ gv_id v = game_id (gr_game game') /\
                 gv_status v = status (gr_game game'))
  end.
Proof.
  split.
  - destruct game as [game|]; [|reflexivity].
    apply read_only_bind; [apply read_only_mapM, read_only_prepare_question|]. intros a.
    apply read_only_bind; [apply read_only_progress_view|]. intros b.
    apply read_only_bind; [apply read_only_progress_view|]. intros c.
    apply read_only_ret.
  - destruct game as [game|]; [|reflexivity].
    unfold assemble, bind.
    destruct (mapM prepare_question (sort_by_order (gr_questions game)) t) as [[qs|e] t1];
      [|left; eexists; reflexivity].
    destruct (progress_view (gr_firstPlayerProgress game) t1) as [[p1|e] t2];
      [|left; eexists; reflexivity].
    destruct (progress_view (gr_secondPlayerProgress game) t2) as [[p2|e] t3];
      [|left; eexists; reflexivity].
    right. eexists. split; [reflexivity|]. split; reflexivity.
Qed.

Lemma connectToGame_eq userId existedGame s :
  connectToGame userId existedGame s =
  let gameId := game_id (ieg_game existedGame) in
  if length (questions s) <? questionsCount s
  then (Throw somethingIsWrongException, store_progress userId s)
  else if existsb (fun r => gq_gameId r =? gameId) (gameQuestions s)
  then (Throw somethingIsWrongException, store_drawn userId s)
  else try_catch (game <- getExtendedGameById gameId ;; assemble game)
                 (fun _ => throw somethingIsWrongException)
                 (store_activated userId gameId s).
Proof.
  cbv zeta.
  unfold connectToGame, try_catch at 1, bind at 1, createProgress.
  unfold bind at 1. unfold getRandomQuestionsForGame.
  unfold with_progresses at 1 2. cbn [questions questionsCount].
  destruct (length (questions s) <? questionsCount s) eqn:Hpool; [reflexivity|].
  unfold store_drawn, store_activated, store_assigned, store_drawn, activated_games,
    new_rows, drawn_questions, store_progress, new_progress.
  unfold with_progresses. cbn [questions questionsCount entropy].
  destruct (draw (questionsCount s) (questions s) (entropy s)) as [qs e] eqn:Hdraw.
  unfold bind at 1. unfold setRandomQuestionsForGame.
  unfold with_entropy. cbn [gameQuestions fst snd].
  destruct (existsb _ (gameQuestions s)) eqn:Hdup; [reflexivity|].
  unfold bind at 1. unfold update_game.
  unfold with_gameQuestions, with_games.
  cbn [users progresses questions gameQuestions games nextId clock entropy questionsCount
       option_map progress_id].
  reflexivity.
Qed.

(** ** The outcomes of [connectToGame] *)

Lemma connectToGame_run userId existedGame s :
  let gameId := game_id (ieg_game existedGame) in
  (length (questions s) < questionsCount s /\
   connectToGame userId existedGame s
   = (Throw somethingIsWrongException, store_progress userId s))
  \/
  (questionsCount s <= length (questions s) /\
   game_rows gameId s <> [] /\
   connectToGame userId existedGame s
   = (Throw somethingIsWrongException, store_drawn userId s))
  \/
  (questionsCount s <= length (questions s) /\
   game_rows gameId s = [] /\
   snd (connectToGame userId existedGame s) = store_activated userId gameId s /\
   ((find_game gameId s = None /\ fst (connectToGame userId existedGame s) = Ok None) \/
    (exists g0, find_game gameId s = Some g0 /\
       (fst (connectToGame userId existedGame s) = Throw somethingIsWrongException \/
        exists v, fst (connectToGame userId existedGame s) = Ok (Some v) /\
                  gv_id v = gameId /\ gv_status v = active)))).
Proof.
  intros gameId. rewrite connectToGame_eq. cbv zeta. fold gameId.
  destruct (length (questions s) <? questionsCount s) eqn:Hpool.
  { left. apply Nat.ltb_lt in Hpool. auto. }
  apply Nat.ltb_ge in Hpool. right.
  destruct (existsb _ (gameQuestions s)) eqn:Hdup.
  { left. split; [exact Hpool|]. split; [|reflexivity].
    unfold game_rows. intros H. apply existsb_false_filter in H. congruence. }
  right. split; [exact Hpool|]. split; [apply existsb_false_filter; exact Hdup|].
  set (t := store_activated userId gameId s).
  unfold try_catch, bind. rewrite getExtendedGameById_run.
  assert (Hfind : find_game gameId t
                  = option_map (activate (Some (nextId s)) (clock s)) (find_game gameId s)).
  { unfold find_game, t, store_activated, activated_games, with_games. cbn [games].
    apply find_game_activated. }
  rewrite Hfind.
  destruct (find_game gameId s) as [g0|] eqn:Hg0; cbn [option_map].
  - destruct (assemble_cases (Some (load_game t (activate (Some (nextId s)) (clock s) g0))) t)
      as [Hs Hf].
    destruct (assemble _ t) as [[r|e] t'] eqn:Ha; cbn [fst snd] in *; subst t'.
    + split; [reflexivity|]. right. exists g0. split; [reflexivity|]. right.
      destruct Hf as [[e He]|[v [Hv [Hid Hst]]]]; [discriminate|].
      exists v. split; [congruence|]. split.
      * rewrite Hid. cbn. apply find_some in Hg0. apply Nat.eqb_eq. apply Hg0.
      * rewrite Hst. reflexivity.
    + split; [reflexivity|]. right. exists g0. split; [reflexivity|]. left. reflexivity.
  - split; [reflexivity|]. left. split; reflexivity.
Qed.

(** ** The outcome of [createGame], and the store invariant *)

Lemma createGame_eq userId s :
  createGame userId s =
  try_catch (game <- getExtendedGameById (S (nextId s)) ;;
             match game with
             | None => ret None
             | Some game =>
                 firstPlayerProgress <- progress_view (gr_firstPlayerProgress game) ;;
                 ret (Some (mkGameView (game_id (gr_game game)) None (status (gr_game game))
                                       firstPlayerProgress None (createdAt (gr_game game))
                                       (startGameDate (gr_game game))
                                       (finishGameDate (gr_game game))))
             end)
            (fun _ => throw somethingIsWrongException)
            (store_created userId s).
Proof. reflexivity. Qed.

Lemma createGame_store userId s : snd (createGame userId s) = store_created userId s.
Proof.
  rewrite createGame_eq.
  apply read_only_try_catch; [|intros e; apply read_only_throw].
  apply read_only_bind; [apply read_only_getExtendedGameById|]. intros [game|];
    [|apply read_only_ret].
  apply read_only_bind; [apply read_only_progress_view|]. intros p. apply read_only_ret.
Qed.

Lemma connectToGame_store userId existedGame s :
  let gameId := game_id (ieg_game existedGame) in
  snd (connectToGame userId existedGame s) = store_progress userId s \/
  snd (connectToGame userId existedGame s) = store_drawn userId s \/
  (game_rows gameId s = [] /\ questionsCount s <= length (questions s) /\
   snd (connectToGame userId existedGame s) = store_activated userId gameId s).
Proof.
  intros gameId.
  destruct (connectToGame_run userId existedGame s) as [[_ H]|[[_ [_ H]]|[H1 [H2 [H3 _]]]]].
  - left. now rewrite H.
  - right. left. now rewrite H.
  - right. right. auto.
Qed.

Lemma activate_ok pid now g :
  firstPlayerProgressId g <> None -> game_ok (activate (Some pid) now g).
Proof.
  intros H. split; [exact H|]. right. split; [reflexivity|]. cbn. discriminate.
Qed.

Lemma store_inv_progress userId s : store_inv s -> store_inv (store_progress userId s).
Proof.
  intros [Hg [[Hfg Hfp] Hr]]. split; [exact Hg|]. split; [|exact Hr].
  split; cbn.
  - intros g Hin. specialize (Hfg g Hin). lia.
  - intros p Hin. apply in_app_or in Hin. destruct Hin as [Hin|[<-|[]]]; cbn.
    + specialize (Hfp p Hin). lia.
    + lia.
Qed.

Lemma store_inv_drawn userId s : store_inv s -> store_inv (store_drawn userId s).
Proof. intros H. apply (store_inv_progress userId) in H. exact H. Qed.

Lemma store_inv_activated userId gameId s :
  game_rows gameId s = [] -> store_inv s -> store_inv (store_activated userId gameId s).
Proof.
  intros Hrows [Hg [[Hfg Hfp] Hr]]. split; [|split; [split|]].
  - cbn. unfold activated_games. intros g Hin. apply in_map_iff in Hin.
    destruct Hin as [g0 [<- Hin0]]. specialize (Hg g0 Hin0).
    destruct (game_id g0 =? gameId); [apply activate_ok, Hg | exact Hg].
  - cbn. unfold activated_games. intros g Hin. apply in_map_iff in Hin.
    destruct Hin as [g0 [<- Hin0]]. specialize (Hfg g0 Hin0).
    destruct (game_id g0 =? gameId); cbn; lia.
  - cbn. intros p Hin. apply in_app_or in Hin. destruct Hin as [Hin|[<-|[]]]; cbn.
    + specialize (Hfp p Hin). lia.
    + lia.
  - intros other. unfold game_rows. cbn [store_activated with_games gameQuestions store_assigned with_gameQuestions].
    rewrite filter_app, length_app, map_app. unfold new_rows.
    destruct (Nat.eq_dec other gameId) as [->|Hne].
    + fold (game_rows gameId s). rewrite Hrows. cbn [map length app Nat.add].
      rewrite stamp_filter_same, stamp_order, stamp_length. reflexivity.
    + rewrite stamp_filter_other by exact Hne. cbn [map length]. rewrite app_nil_r, Nat.add_0_r.
      apply Hr.
Qed.

Lemma store_inv_created userId s : store_inv s -> store_inv (store_created userId s).
Proof.
  intros [Hg [[Hfg Hfp] Hr]]. split; [|split; [split|]].
  - cbn. intros g Hin. apply in_app_or in Hin. destruct Hin as [Hin|[<-|[]]]; [auto|].
    split; [discriminate|]. left. split; reflexivity.
  - cbn. intros g Hin. apply in_app_or in Hin. destruct Hin as [Hin|[<-|[]]]; cbn.
    + specialize (Hfg g Hin). lia.
    + lia.
  - cbn. intros p Hin. apply in_app_or in Hin. destruct Hin as [Hin|[<-|[]]]; cbn.
    + specialize (Hfp p Hin). lia.
    + lia.
  - exact Hr.
Qed.

Lemma store_inv_initial s : initial s -> store_inv s.
Proof.
  intros [Hp [Hq Hg]]. split; [|split; [split|]].
  - rewrite Hg. intros g [].
  - rewrite Hg. intros g [].
  - rewrite Hp. intros p [].
  - intros gameId. unfold game_rows. rewrite Hq. reflexivity.
Qed.

Lemma store_inv_exec c s : store_inv s -> store_inv (exec c s).
Proof.
  intros H. destruct c as [userId|userId existedGame]; cbn [exec].
  - rewrite createGame_store. now apply store_inv_created.
  - destruct (connectToGame_store userId existedGame s) as [E|[E|[Hrows [_ E]]]]; rewrite E.
    + now apply store_inv_progress.
    + now apply store_inv_drawn.
    + now apply store_inv_activated.
Qed.

Lemma reachable_inv s : reachable s -> store_inv s.
Proof.
  induction 1 as [s H|c s _ IH]; [now apply store_inv_initial | now apply store_inv_exec].
Qed.

(** ** The second-player write *)

Lemma activated_rows_nonempty userId gameId s :
  0 < questionsCount s -> questionsCount s <= length (questions s) ->
  game_rows gameId (store_activated userId gameId s) <> [].
Proof.
  intros Hpos Hpool H. apply (f_equal (@length _)) in H.
  unfold game_rows in H. cbn [store_activated with_games gameQuestions store_assigned with_gameQuestions] in H.
  rewrite filter_app, length_app in H. unfold new_rows in H.
  rewrite stamp_filter_same, stamp_length in H. unfold drawn_questions in H.
  rewrite draw_length in H by exact Hpool. cbn in H. lia.
Qed.

Lemma activated_games_bound gameId s g :
  In g (activated_games gameId s) -> game_id g = gameId ->
  status g = active /\ secondPlayerProgressId g = Some (nextId s) /\
  startGameDate g = Some (clock s).
Proof.
  unfold activated_games. intros Hin Hid.
  apply in_map_iff in Hin. destruct Hin as [g0 [Hg0 _]].
  destruct (game_id g0 =? gameId) eqn:E0; subst g.
  - repeat split.
  - apply Nat.eqb_neq in E0. contradiction.
Qed.




(** ** Two attempts on one snapshot *)

(** Two calls one after the other on the same snapshot: once the first has
    succeeded, the second is stopped by the question assignment. *)
Lemma connectToGame_second_attempt_fails winner loser existedGame s v s1 :
  0 < questionsCount s ->
  connectToGame winner existedGame s = (Ok (Some v), s1) ->
  let gameId := game_id (ieg_game existedGame) in
  (forall g, In g (games s1) -> game_id g = gameId ->
             status g = active /\ secondPlayerProgressId g = Some (nextId s)) /\
  exists s2,
    connectToGame loser existedGame s1 = (Throw somethingIsWrongException, s2) /\
    games s2 = games s1 /\
    gameQuestions s2 = gameQuestions s1 /\
    progresses s2 = progresses s1 ++ [mkProgress (nextId s1) loser 0 []].
Proof.
  intros Hpos Hrun gameId.
  destruct (connectToGame_run winner existedGame s)
    as [[_ E]|[[_ [_ E]]|[Hp [Hr [E _]]]]];
    try (rewrite Hrun in E; discriminate).
  fold gameId in Hr, E. rewrite Hrun in E. cbn [snd] in E.
  split.
  - subst s1. cbn [store_activated with_games games]. intros g Hin Hid.
    destruct (@activated_games_bound gameId s g Hin Hid) as [H1 [H2 _]]. split; assumption.
  - exists (store_drawn loser s1).
    destruct (connectToGame_run loser existedGame s1)
      as [[Hp1 _]|[[_ [_ E1]]|[_ [Hr1 _]]]].
    + subst s1. cbn in Hp1. lia.
    + rewrite E1. repeat split.
    + exfalso. subst s1. revert Hr1. now apply activated_rows_nonempty.
Qed.

Section AttemptSteps.

Variables (userId : string) (existedGame : IExtendedGame).
Let gameId := game_id (ieg_game existedGame).

Lemma step_create s :
  attempt_step userId existedGame AtCreateProgress s
  = (AtDraw (Some (new_progress userId s)), store_progress userId s).
Proof. reflexivity. Qed.

Lemma step_draw progress s :
  attempt_step userId existedGame (AtDraw progress) s
  = if length (questions s) <? questionsCount s
    then (Returned (Throw somethingIsWrongException), s)
    else (AtAssign progress (drawn_questions s),
          with_entropy s (snd (draw (questionsCount s) (questions s) (entropy s)))).
Proof.
  cbn [attempt_step]. unfold getRandomQuestionsForGame, drawn_questions.
  destruct (length (questions s) <? questionsCount s); [reflexivity|].
  destruct (draw (questionsCount s) (questions s) (entropy s)); reflexivity.
Qed.

Lemma step_assign progress qs s :
  attempt_step userId existedGame (AtAssign progress qs) s
  = if existsb (fun r => gq_gameId r =? gameId) (gameQuestions s)
    then (Returned (Throw somethingIsWrongException), s)
    else (AtUpdate progress,
          with_gameQuestions s (gameQuestions s ++ stamp gameId qs 0 (nextId s))
                             (nextId s + length qs)).
Proof.
  cbn [attempt_step]. unfold setRandomQuestionsForGame. fold gameId.
  destruct (existsb _ (gameQuestions s)); reflexivity.
Qed.

Lemma step_update progress s :
  attempt_step userId existedGame (AtUpdate progress) s
  = (AtReadBack,
     with_games s
       (map (fun g => if game_id g =? gameId
                      then activate (option_map progress_id progress) (clock s) g
                      else g) (games s))
       (nextId s)).
Proof. reflexivity. Qed.

Lemma step_read_back s :
  attempt_step userId existedGame AtReadBack s
  = (Returned (fst (try_catch (game <- getExtendedGameById gameId ;; assemble game)
                              (fun _ => throw somethingIsWrongException) s)),
     s).
Proof.
  cbn [attempt_step]. fold gameId. unfold try_catch.
  assert (H : read_only (game <- getExtendedGameById gameId ;; assemble game)).
  { apply read_only_bind; [apply read_only_getExtendedGameById|].
    intros game. intros t. apply (assemble_cases game t). }
  specialize (H s).
  destruct ((game <- getExtendedGameById gameId ;; assemble game) s) as [[r|e] t];
    cbn in *; subst t; reflexivity.
Qed.

(** Whatever happened to the store in between, a re-read that finds no row
    with the snapshot's id makes the call answer none. *)
Lemma step_read_back_none s :
  find_game gameId s = None ->
  attempt_step userId existedGame AtReadBack s = (Returned (Ok None), s).
Proof.
  intros H. rewrite step_read_back. unfold try_catch, bind.
  rewrite getExtendedGameById_run, H. reflexivity.
Qed.

Lemma attempt_run_connectToGame s :
  attempt_run 5 userId existedGame AtCreateProgress s
  = (Returned (fst (connectToGame userId existedGame s)),
     snd (connectToGame userId existedGame s)).
Proof.
  rewrite connectToGame_eq. cbv zeta. fold gameId.
  unfold attempt_run. rewrite step_create, step_draw.
  change (questions (store_progress userId s)) with (questions s).
  change (questionsCount (store_progress userId s)) with (questionsCount s).
  destruct (length (questions s) <? questionsCount s); [reflexivity|].
  rewrite step_assign.
  change (gameQuestions (with_entropy _ _)) with (gameQuestions s).
  destruct (existsb _ (gameQuestions s)); [reflexivity|].
  rewrite step_update, step_read_back.
  match goal with |- (_, ?t) = (_, snd (_ ?t')) => change t with t' end.
  match goal with |- (_, ?t) = (_, snd (?m ?t)) =>
    assert (H : snd (m t) = t); [|rewrite H; reflexivity] end.
  apply read_only_try_catch; [|intros e; apply read_only_throw].
  apply read_only_bind; [apply read_only_getExtendedGameById|].
  intros game t. apply (assemble_cases game t).
Qed.

End AttemptSteps.

Section Race.

Variables (existedGame : IExtendedGame) (s0 : Store).
Let gameId := game_id (ieg_game existedGame).

Hypothesis count_positive : 0 < questionsCount s0.
Hypothesis pool_sufficient : questionsCount s0 <= length (questions s0).












End Race.


(** ** createGame and the participation gate *)

Lemma find_user_store_created userId s u :
  find_user u (store_created userId s) = find_user u s.
Proof. reflexivity. Qed.

(** C3 (amended): [createGame] in the repository consults no participation
    check.  In every store the matchmaker reaches, a call for an existing
    user succeeds whether or not that user already has a pending or an
    active game: it appends one Progress row and one pending game bound to
    it, and answers with that game's view.  So a second [createGame] by the
    same user creates a second pending game; a ParticipationConflict can
    only come from a gate the caller puts in front of it. *)
Theorem createGame_never_conflicts userId s u :
  reachable s ->
  find_user userId s = Some u ->
  exists s',
    createGame userId s
    = (Ok (Some (mkGameView (S (nextId s)) None pending
                            (mkProgressView [] (mkPlayerView (nextId s) (login u)) 0)
                            None (clock s) None None)),
       s') /\
    progresses s' = progresses s ++ [mkProgress (nextId s) userId 0 []] /\
    games s' = games s ++ [mkGame (S (nextId s)) pending (Some (nextId s)) None
                                  (clock s) None None].
Proof.
  intros Hreach Huser. apply reachable_inv in Hreach.
  destruct Hreach as [_ [[Hfg Hfp] _]].
  exists (store_created userId s). split; [|split; reflexivity].
  rewrite createGame_eq. unfold try_catch, bind. rewrite getExtendedGameById_run.
  assert (Hgame : find_game (S (nextId s)) (store_created userId s) = Some (new_game s)).
  { unfold find_game. cbn [store_created with_games games].
    rewrite find_app_none.
    - cbn. rewrite Nat.eqb_refl. reflexivity.
    - apply find_none_iff. intros g Hin. specialize (Hfg g Hin).
      apply Nat.eqb_neq. lia. }
  rewrite Hgame. cbn [option_map].
  assert (Hprog : find_progress (nextId s) (store_created userId s)
                  = Some (new_progress userId s)).
  { unfold find_progress. cbn [store_created with_games progresses store_progress with_progresses].
    rewrite find_app_none.
    - cbn. rewrite Nat.eqb_refl. reflexivity.
    - apply find_none_iff. intros p Hin. specialize (Hfp p Hin).
      apply Nat.eqb_neq. lia. }
  unfold load_game. cbn [new_game firstPlayerProgressId secondPlayerProgressId gr_firstPlayerProgress
                         load_progress gr_game game_id status createdAt startGameDate finishGameDate].
  rewrite Hprog. cbn [new_progress progress_userId]. rewrite find_user_store_created, Huser.
  reflexivity.
Qed.

(** ** A successful activation, and the data-model invariant *)

Lemma activated_rows_order userId gameId s :
  game_rows gameId s = [] -> questionsCount s <= length (questions s) ->
  map order (game_rows gameId (store_activated userId gameId s))
  = seq 0 (questionsCount s).
Proof.
  intros Hrows Hpool. unfold game_rows.
  cbn [store_activated with_games gameQuestions store_assigned with_gameQuestions].
  rewrite filter_app. fold (game_rows gameId s). rewrite Hrows. cbn [app].
  unfold new_rows. rewrite stamp_filter_same, stamp_order. unfold drawn_questions.
  rewrite draw_length by exact Hpool. reflexivity.
Qed.

(** C4: after a successful [connectToGame] of user B on game G, a Progress
    row of B with the newly generated id exists, every row of G is active
    with [startGameDate] set and [secondPlayerProgressId] equal to that new
    progress id (and G is in the store), and G has exactly the configured
    count of GameQuestion rows, their orders being 0 .. count-1 in table
    order; the answer reports G as active. *)
Theorem connectToGame_success_activates userId existedGame s v s' :
  connectToGame userId existedGame s = (Ok (Some v), s') ->
  let gameId := game_id (ieg_game existedGame) in
  In (mkProgress (nextId s) userId 0 []) (progresses s') /\
  (exists g, find_game gameId s' = Some g) /\
  (forall g, In g (games s') -> game_id g = gameId ->
             status g = active /\
             startGameDate g = Some (clock s) /\
             secondPlayerProgressId g = Some (nextId s)) /\
  length (game_rows gameId s') = questionsCount s /\
  map order (game_rows gameId s') = seq 0 (questionsCount s) /\
  gv_id v = gameId /\ gv_status v = active.
Proof.
  intros Hrun gameId.
  destruct (connectToGame_run userId existedGame s)
    as [[_ E]|[[_ [_ E]]|[Hp [Hr [E Hres]]]]];
    try (rewrite Hrun in E; discriminate).
  fold gameId in Hr, E, Hres. rewrite Hrun in E, Hres. cbn [fst snd] in E, Hres. subst s'.
  destruct Hres as [[_ H]|[g0 [Hg0 [H|[v' [Hv [Hid Hst]]]]]]]; try discriminate.
  injection Hv as <-.
  split; [|split; [|split; [|split; [|split; [|split]]]]].
  - cbn. apply in_or_app. right. left. reflexivity.
  - exists (activate (Some (nextId s)) (clock s) g0).
    unfold find_game. cbn [store_activated with_games games]. unfold activated_games.
    rewrite find_game_activated. unfold find_game in Hg0. rewrite Hg0. reflexivity.
  - cbn [store_activated with_games games]. intros g Hin Hidg.
    destruct (@activated_games_bound gameId s g Hin Hidg) as [H1 [H2 H3]]. auto.
  - rewrite <- (length_map order), activated_rows_order by assumption. apply length_seq.
  - apply activated_rows_order; assumption.
  - exact Hid.
  - exact Hst.
Qed.

(** C5: in every store reached by [createGame] and [connectToGame] calls, a
    game's [secondPlayerProgressId] is set if and only if its status is
    active or finished; a pending game has its first player bound and no
    second player, an active game has both progress links set. *)
Theorem second_player_iff_started s g :
  reachable s -> In g (games s) ->
  (secondPlayerProgressId g <> None <-> status g = active \/ status g = finished) /\
  (status g = pending ->
   firstPlayerProgressId g <> None /\ secondPlayerProgressId g = None) /\
  (status g = active ->
   firstPlayerProgressId g <> None /\ secondPlayerProgressId g <> None).
Proof.
  intros Hreach Hin. apply reachable_inv in Hreach. destruct Hreach as [Hg _].
  destruct (Hg g Hin) as [Hfirst [[Hst Hsnd]|[Hst Hsnd]]];
    rewrite Hst; (split; [|split]).
  - split; [intros H; contradiction | intros [H|H]; discriminate].
  - intros _. split; assumption.
  - discriminate.
  - split; [intros _; left; reflexivity | intros _; exact Hsnd].
  - discriminate.
  - intros _. split; assumption.
Qed.

(** ** Error paths *)


(** ** Joining one's own game *)

(** C8 (amended): the join path of the repository never compares the joining
    user with the first player.  In every store the matchmaker reaches, when
    [getGameInPendingSecondPalyer] reports a slot whose first player is [u]
    and [connectToGame] for that same [u] on that slot succeeds, the store
    holds that game as an active game whose first and second progress both
    belong to [u].  (The slot carries the first player's [userId], so the
    comparison is left to the caller.) *)
Theorem connectToGame_allows_self_join s userId existedGame v s' :
  reachable s ->
  getGameInPendingSecondPalyer s = (Ok (Some existedGame), s) ->
  ieg_userId existedGame = Some userId ->
  connectToGame userId existedGame s = (Ok (Some v), s') ->
  exists g first,
    In g (games s') /\
    game_id g = game_id (ieg_game existedGame) /\
    status g = active /\
    firstPlayerProgressId g = Some first /\
    secondPlayerProgressId g = Some (nextId s) /\
    first <> nextId s /\
    option_map progress_userId (find_progress first s') = Some userId /\
    option_map progress_userId (find_progress (nextId s) s') = Some userId.
Proof.
  intros Hreach Hslot Huser Hrun. apply reachable_inv in Hreach.
  destruct Hreach as [_ [[_ Hfp] _]].
  rewrite getGameInPendingSecondPalyer_run in Hslot.
  destruct (getRawOne (filter pending_with_first_player (games s))) as [g0|] eqn:Hfind;
    cbn [option_map] in Hslot; [|discriminate].
  injection Hslot as <-. cbn [ieg_game ieg_userId] in *.
  apply getRawOne_filter_some in Hfind. destruct Hfind as [Hin0 _].
  unfold first_player_userId in Huser.
  destruct (firstPlayerProgressId g0) as [first|] eqn:Hfirst; [|discriminate].
  destruct (find_progress first s) as [p|] eqn:Hp; [|discriminate].
  injection Huser as Hu.
  set (eg := mkIExtendedGame g0 _ None) in Hrun.
  destruct (connectToGame_run userId eg s)
    as [[_ E]|[[_ [_ E]]|[_ [_ [E _]]]]];
    try (rewrite Hrun in E; discriminate).
  rewrite Hrun in E. cbn [snd eg ieg_game] in E. subst s'.
  exists (activate (Some (nextId s)) (clock s) g0), first.
  split; [|split; [|split; [|split; [|split; [|split; [|split]]]]]];
    try reflexivity.
  - cbn [store_activated with_games games]. unfold activated_games.
    apply in_map_iff. exists g0. rewrite Nat.eqb_refl. auto.
  - exact Hfirst.
  - pose proof (find_some _ _ Hp) as [Hinp Hid]. apply Nat.eqb_eq in Hid.
    specialize (Hfp p Hinp). lia.
  - unfold find_progress in *. cbn [store_activated with_games store_assigned
      with_gameQuestions store_drawn with_entropy store_progress with_progresses progresses].
    rewrite (find_app_some _ _ _ Hp). cbn. congruence.
  - unfold find_progress. cbn [store_activated with_games store_assigned
      with_gameQuestions store_drawn with_entropy store_progress with_progresses progresses].
    rewrite find_app_none.
    + cbn. rewrite Nat.eqb_refl. reflexivity.
    + apply find_none_iff. intros q Hq. specialize (Hfp q Hq). apply Nat.eqb_neq. lia.
Qed.

(** ** Question lists, and the answer none *)

Lemma insert_by_order_perm x l : Permutation (x :: l) (insert_by_order x l).
Proof.
  induction l as [|y l IH]; cbn; [reflexivity|].
  destruct (order (gqr_row x) <=? order (gqr_row y)); [reflexivity|].
  rewrite perm_swap. now apply perm_skip.
Qed.

Lemma insert_by_order_sorted x l :
  Sorted order_le l -> Sorted order_le (insert_by_order x l).
Proof.
  induction 1 as [|y l Hs IH Hhd]; cbn; [repeat constructor|].
  destruct (order (gqr_row x) <=? order (gqr_row y)) eqn:E.
  - apply Nat.leb_le in E. constructor; [now constructor | now constructor].
  - apply Nat.leb_gt in E. constructor; [exact IH|].
    destruct l as [|z l]; cbn.
    + constructor. unfold order_le. lia.
    + destruct (order (gqr_row x) <=? order (gqr_row z)).
      * constructor. unfold order_le. lia.
      * constructor. now inversion Hhd.
Qed.

Lemma insert_by_order_filter k x l :
  filter (fun q => order (gqr_row q) =? k) (insert_by_order x l)
  = filter (fun q => order (gqr_row q) =? k) (x :: l).
Proof.
  induction l as [|y l IH]; [reflexivity|]. cbn [insert_by_order].
  destruct (order (gqr_row x) <=? order (gqr_row y)) eqn:E; [reflexivity|].
  apply Nat.leb_gt in E. cbn [filter] in *. rewrite IH.
  destruct (Nat.eqb_spec (order (gqr_row x)) k) as [Hx|Hx];
    destruct (Nat.eqb_spec (order (gqr_row y)) k) as [Hy|Hy]; try reflexivity.
  lia.
Qed.

Lemma sort_by_order_perm l : Permutation l (sort_by_order l).
Proof.
  unfold sort_by_order. induction l as [|x l IH]; cbn [fold_right]; [constructor|].
  rewrite <- insert_by_order_perm. now apply perm_skip.
Qed.

Lemma sort_by_order_Sorted l : Sorted order_le (sort_by_order l).
Proof.
  unfold sort_by_order. induction l as [|x l IH]; cbn [fold_right]; [constructor|].
  now apply insert_by_order_sorted.
Qed.

Lemma seq_orders_sorted l : forall k,
  map (fun q => order (gqr_row q)) l = seq k (length l) -> StronglySorted order_lt l.
Proof.
  induction l as [|x l IH]; intros k H; [constructor|].
  cbn in H. injection H as Hx Hl. constructor; [now apply (IH (S k))|].
  apply Forall_forall. intros y Hy. unfold order_lt.
  assert (Hin : In (order (gqr_row y)) (seq (S k) (length l))).
  { rewrite <- Hl. now apply (in_map (fun q => order (gqr_row q))). }
  apply in_seq in Hin. lia.
Qed.

(** Rows with pairwise distinct orders have one sorted arrangement only. *)
Lemma sorted_arrangement_unique l : forall l',
  StronglySorted order_lt l -> Sorted order_le l' -> Permutation l' l -> l' = l.
Proof.
  induction l as [|x l IH]; intros l' Hl Hl' Hp.
  - now apply Permutation_sym, Permutation_nil in Hp.
  - destruct l' as [|y l']; [apply Permutation_nil in Hp; discriminate|].
    apply StronglySorted_inv in Hl. destruct Hl as [Hl Hx].
    assert (Hy : StronglySorted order_le (y :: l')).
    { apply Sorted_StronglySorted; [|exact Hl'].
      intros a b c. unfold order_le. lia. }
    apply StronglySorted_inv in Hy. destruct Hy as [_ Hy].
    rewrite Forall_forall in Hx, Hy.
    assert (E : y = x).
    { assert (Hin : In y (x :: l)) by (apply (Permutation_in _ Hp); now left).
      destruct Hin as [E|Hin]; [now symmetry|].
      assert (Hin' : In x (y :: l'))
        by (apply (Permutation_in _ (Permutation_sym Hp)); now left).
      destruct Hin' as [E|Hin']; [exact E|].
      specialize (Hx y Hin). specialize (Hy x Hin').
      unfold order_lt in Hx. unfold order_le in Hy. lia. }
    subst y. f_equal. apply IH; [exact Hl | now apply Sorted_inv in Hl' |].
    now apply Permutation_cons_inv in Hp.
Qed.

Lemma sort_by_order_canonical l l' k :
  map (fun q => order (gqr_row q)) l = seq k (length l) ->
  Permutation l' l -> sort_by_order l' = l.
Proof.
  intros H Hp. apply sorted_arrangement_unique.
  - now apply seq_orders_sorted with k.
  - apply sort_by_order_Sorted.
  - transitivity l'; [symmetry; apply sort_by_order_perm | exact Hp].
Qed.

Lemma questions_of_game_orders s id :
  rows_ordered s ->
  map (fun q => order (gqr_row q)) (questions_of_game s id)
  = seq 0 (length (questions_of_game s id)).
Proof.
  intros H. unfold questions_of_game. rewrite map_map, length_map. cbn [gqr_row]. apply H.
Qed.

Lemma load_questions_perm s id : Permutation (load_questions s id) (questions_of_game s id).
Proof. apply reorder_perm. Qed.

(** What a call leaves alone: the question pool, the rows of a game that
    already has some, and the presence of a game. *)
Lemma exec_frame c s id :
  questions (exec c s) = questions s /\
  (game_rows id s <> [] -> game_rows id (exec c s) = game_rows id s) /\
  (find_game id s <> None -> find_game id (exec c s) <> None).
Proof.
  destruct c as [userId|userId existedGame]; cbn [exec].
  - rewrite createGame_store. split; [reflexivity|]. split; [reflexivity|].
    intros H. destruct (find_game id s) as [g|] eqn:Hg; [|contradiction].
    unfold find_game in *. cbn [store_created with_games games].
    rewrite (find_app_some _ _ _ Hg). discriminate.
  - destruct (connectToGame_store userId existedGame s) as [E|[E|[Hrows [_ E]]]]; rewrite E.
    + repeat split; auto.
    + repeat split; auto.
    + split; [reflexivity|]. split.
      * intros Hne. unfold game_rows.
        cbn [store_activated with_games gameQuestions store_assigned with_gameQuestions].
        rewrite filter_app. unfold new_rows.
        rewrite stamp_filter_other; [apply app_nil_r|].
        intros ->. contradiction.
      * unfold find_game. cbn [store_activated with_games games]. unfold activated_games.
        intros H.
        destruct (Nat.eq_dec id (game_id (ieg_game existedGame))) as [->|Hne].
        -- rewrite find_game_activated.
           destruct (find _ (games s)); [discriminate | contradiction].
        -- destruct (find (fun g => game_id g =? id) (games s)) as [g|] eqn:Hg;
             [|contradiction].
           clear H. revert Hg. induction (games s) as [|x l IH]; cbn; [discriminate|].
           destruct (game_id x =? id) eqn:Ex.
           ++ intros _. destruct (game_id x =? game_id (ieg_game existedGame)); cbn;
                rewrite Ex; discriminate.
           ++ intros Hg. destruct (game_id x =? game_id (ieg_game existedGame)); cbn;
                rewrite Ex; now apply IH.
Qed.

Lemma exec_all_frame cs : forall s id,
  game_rows id s <> [] -> find_game id s <> None ->
  questions (exec_all cs s) = questions s /\
  game_rows id (exec_all cs s) = game_rows id s /\
  find_game id (exec_all cs s) <> None.
Proof.
  induction cs as [|c cs IH]; intros s id Hr Hg; [auto|].
  cbn [exec_all fold_left]. destruct (exec_frame c s id) as [Hq [Hrows Hgame]].
  specialize (Hrows Hr). specialize (Hgame Hg).
  destruct (IH (exec c s) id) as [Hq' [Hr' Hg']]; [congruence | exact Hgame |].
  unfold exec_all in *. rewrite Hq', Hr'. auto.
Qed.

Lemma exec_all_questions cs s id :
  game_rows id s <> [] -> find_game id s <> None ->
  questions_of_game (exec_all cs s) id = questions_of_game s id /\
  find_game id (exec_all cs s) <> None.
Proof.
  intros Hr Hg. destruct (exec_all_frame cs s id Hr Hg) as [Hq [Hr' Hg']].
  split; [|exact Hg']. unfold questions_of_game, find_question. now rewrite Hr', Hq.
Qed.




(** * The rest of the repository *)

Lemma row_kept_refl g : row_kept g g.
Proof. repeat split. now left. Qed.

Lemma Forall2_refl {A} (R : A -> A -> Prop) l : (forall a, R a a) -> Forall2 R l l.
Proof. intros H. induction l; constructor; auto. Qed.

Lemma activated_games_kept gameId s : Forall2 row_kept (games s) (activated_games gameId s).
Proof.
  unfold activated_games. induction (games s) as [|g l IH]; cbn; constructor; [|exact IH].
  destruct (game_id g =? gameId); [|apply row_kept_refl].
  repeat split. now right.
Qed.

(** X2: what a [createGame] or [connectToGame] call never does.  It leaves
    the users and the question pool alone; it adds exactly one Progress row
    and only appends GameQuestion rows; every game row that was there stays
    in place with its id, first player, [createdAt] and [finishGameDate], and
    is either untouched or active afterwards.  [createGame] rewrites no row
    and appends exactly one, [connectToGame] appends none. *)
Theorem exec_appends_or_activates c s :
  users (exec c s) = users s /\
  questions (exec c s) = questions s /\
  questionsCount (exec c s) = questionsCount s /\
  (exists added, progresses (exec c s) = progresses s ++ added /\ length added = 1) /\
  (exists added, gameQuestions (exec c s) = gameQuestions s ++ added) /\
  (exists kept added,
     games (exec c s) = kept ++ added /\
     Forall2 row_kept (games s) kept /\
     match c with
     | CreateGame _ => kept = games s /\ length added = 1
     | JoinGame _ _ => added = []
     end).
Proof.
  assert (Hp : forall u, exists added,
             progresses s ++ [new_progress u s] = progresses s ++ added /\ length added = 1)
    by (intros u; eexists; split; reflexivity).
  assert (Hq : exists added, gameQuestions s = gameQuestions s ++ added)
    by (exists []; now rewrite app_nil_r).
  destruct c as [u|u eg]; cbn [exec].
  - rewrite createGame_store. repeat split; try apply Hp; try apply Hq.
    exists (games s), [new_game s]. split; [reflexivity|].
    split; [apply Forall2_refl, row_kept_refl | split; reflexivity].
  - assert (Hg : exists kept added,
               games s = kept ++ added /\ Forall2 row_kept (games s) kept /\ added = []).
    { exists (games s), []. rewrite app_nil_r.
      split; [reflexivity|]. split; [apply Forall2_refl, row_kept_refl | reflexivity]. }
    destruct (connectToGame_store u eg s) as [E|[E|[_ [_ E]]]]; rewrite E.
    + repeat split; try apply Hp; try apply Hq; exact Hg.
    + repeat split; try apply Hp; try apply Hq; exact Hg.
    + repeat split; try apply Hp.
      * eexists. reflexivity.
      * exists (activated_games (game_id (ieg_game eg)) s), [].
        cbn [store_activated with_games games]. rewrite app_nil_r.
        split; [reflexivity|]. split; [apply activated_games_kept | reflexivity].
Qed.

Lemma remove_nth_incl {A} (l : list A) : forall i x, In x (remove_nth i l) -> In x l.
Proof.
  induction l as [|a l IH]; intros i x H; destruct i; cbn in *; try contradiction.
  - now right.
  - destruct H as [H|H]; [now left | right; eauto].
Qed.

Lemma draw_incl n : forall pool e q, In q (fst (draw n pool e)) -> In q pool.
Proof.
  induction n as [|n IH]; intros pool e q H; cbn in H; [destruct H|].
  destruct pool as [|q0 pool]; [destruct H|].
  destruct (next_random e) as [r e1].
  set (i := r mod length (q0 :: pool)) in *.
  destruct (draw n (remove_nth i (q0 :: pool)) e1) as [rest e2] eqn:E.
  cbn [fst] in H. destruct H as [<-|H].
  - apply nth_In. apply Nat.mod_upper_bound. cbn. lia.
  - apply remove_nth_incl with i. apply IH with e1. rewrite E. exact H.
Qed.

Lemma stamp_question gameId qs : forall pos id0 r,
  In r (stamp gameId qs pos id0) ->
  exists q, In q qs /\ gq_questionId r = question_id q.
Proof.
  induction qs as [|q qs IH]; intros pos id0 r H; cbn in H; [destruct H|].
  destruct H as [<-|H].
  - exists q. split; [now left | reflexivity].
  - destruct (IH _ _ _ H) as [q' [Hq Hr]]. exists q'. split; [now right | exact Hr].
Qed.

Lemma NoDup_progress_ids_append userId s :
  ids_fresh s -> NoDup (map progress_id (progresses s)) ->
  NoDup (map progress_id (progresses s ++ [new_progress userId s])).
Proof.
  intros [_ Hfp] Hnd. rewrite map_app. cbn.
  apply NoDup_app; [exact Hnd | repeat constructor; intros [] |].
  intros x Hx [<-|[]]. apply in_map_iff in Hx. destruct Hx as [p [Hp Hin]].
  specialize (Hfp p Hin). lia.
Qed.

Lemma activated_games_ids gameId s :
  map game_id (activated_games gameId s) = map game_id (games s).
Proof.
  unfold activated_games. rewrite map_map. apply map_ext.
  intros g. destruct (game_id g =? gameId); reflexivity.
Qed.

Lemma references_progress userId s :
  ids_fresh s -> references_resolve s -> references_resolve (store_progress userId s).
Proof.
  intros Hf [Hg [Hp [Hl Hq]]]. split; [exact Hg|]. split; [|split; [|exact Hq]].
  - now apply NoDup_progress_ids_append.
  - intros g p Hin Hlink. destruct (Hl g p Hin Hlink) as [pr [Hpr Hid]].
    exists pr. split; [cbn; apply in_or_app; now left | exact Hid].
Qed.

Lemma references_activated userId gameId s :
  ids_fresh s -> references_resolve s ->
  references_resolve (store_activated userId gameId s).
Proof.
  intros Hf [Hg [Hp [Hl Hq]]]. split; [|split; [|split]].
  - cbn [store_activated with_games games]. now rewrite activated_games_ids.
  - now apply NoDup_progress_ids_append.
  - cbn [store_activated with_games games]. unfold activated_games.
    intros g p Hin Hlink. apply in_map_iff in Hin. destruct Hin as [g0 [Hg0 Hin0]].
    assert (Hold : forall pr, In pr (progresses s) ->
                     In pr (progresses (store_activated userId gameId s)))
      by (intros pr H; cbn; apply in_or_app; now left).
    destruct (game_id g0 =? gameId); subst g.
    + cbn [activate firstPlayerProgressId secondPlayerProgressId] in Hlink.
      destruct Hlink as [Hlink|Hlink].
      * destruct (Hl g0 p Hin0 (or_introl Hlink)) as [pr [Hpr Hid]]. exists pr. auto.
      * injection Hlink as <-. exists (new_progress userId s). split; [|reflexivity].
        cbn. apply in_or_app. right. now left.
    + destruct (Hl g0 p Hin0 Hlink) as [pr [Hpr Hid]]. exists pr. auto.
  - cbn. intros r Hin. apply in_app_or in Hin. destruct Hin as [Hin|Hin]; [now apply Hq|].
    unfold new_rows in Hin. destruct (stamp_question _ _ _ _ _ Hin) as [q [Hqd Hr]].
    exists q. split; [|now symmetry]. unfold drawn_questions in Hqd.
    now apply draw_incl in Hqd.
Qed.

Lemma references_created userId s :
  ids_fresh s -> references_resolve s -> references_resolve (store_created userId s).
Proof.
  intros Hf [Hg [Hp [Hl Hq]]]. split; [|split; [|split; [|exact Hq]]].
  - cbn. rewrite map_app. cbn.
    apply NoDup_app; [exact Hg | repeat constructor; intros [] |].
    intros x Hx [<-|[]]. apply in_map_iff in Hx. destruct Hx as [g [Hid Hin]].
    destruct Hf as [Hfg _]. specialize (Hfg g Hin). lia.
  - now apply NoDup_progress_ids_append.
  - cbn. intros g p Hin Hlink. apply in_app_or in Hin. destruct Hin as [Hin|[<-|[]]].
    + destruct (Hl g p Hin Hlink) as [pr [Hpr Hid]]. exists pr.
      split; [apply in_or_app; now left | exact Hid].
    + cbn in Hlink. destruct Hlink as [Hlink|Hlink]; [|discriminate].
      injection Hlink as <-. exists (new_progress userId s).
      split; [apply in_or_app; right; now left | reflexivity].
Qed.

Lemma reachable_refs_ok s : reachable s -> references_resolve s.
Proof.
  induction 1 as [s [Hp [Hq Hg]]|c s Hreach IH].
  - unfold references_resolve. rewrite Hp, Hq, Hg. cbn.
    repeat split; try constructor; intros; contradiction.
  - apply reachable_inv in Hreach. destruct Hreach as [_ [Hf _]].
    destruct c as [u|u eg]; cbn [exec].
    + rewrite createGame_store. now apply references_created.
    + destruct (connectToGame_store u eg s) as [E|[E|[_ [_ E]]]]; rewrite E.
      * now apply references_progress.
      * now apply (references_progress u).
      * now apply references_activated.
Qed.

Lemma getById_run id s : getById id s = (Ok (find_game id s), s).
Proof. reflexivity. Qed.


Lemma find_game_created_new userId s :
  ids_fresh s -> find_game (S (nextId s)) (store_created userId s) = Some (new_game s).
Proof.
  intros [Hfg _]. unfold find_game. cbn [store_created with_games games].
  rewrite find_app_none.
  - cbn. rewrite Nat.eqb_refl. reflexivity.
  - apply find_none_iff. intros g Hin. specialize (Hfg g Hin). apply Nat.eqb_neq. lia.
Qed.

Lemma find_game_created_other userId s id :
  id <> S (nextId s) -> find_game id (store_created userId s) = find_game id s.
Proof.
  intros Hne. unfold find_game. cbn [store_created with_games games].
  destruct (find (fun g => game_id g =? id) (games s)) as [g|] eqn:E.
  - now apply find_app_some.
  - rewrite find_app_none by exact E. cbn [find new_game game_id].
    replace (S (nextId s) =? id) with false; [reflexivity|].
    symmetry. apply Nat.eqb_neq. congruence.
Qed.

Lemma find_progress_created_new userId s :
  ids_fresh s -> find_progress (nextId s) (store_created userId s) = Some (new_progress userId s).
Proof.
  intros [_ Hfp]. unfold find_progress.
  cbn [store_created with_games progresses store_progress with_progresses].
  rewrite find_app_none.
  - cbn. rewrite Nat.eqb_refl. reflexivity.
  - apply find_none_iff. intros p Hin. specialize (Hfp p Hin). apply Nat.eqb_neq. lia.
Qed.

(** The answer of [createGame] where generated ids are fresh: the view of
    the new game when the user has a row, the exception when not. *)
Lemma createGame_run userId s :
  ids_fresh s ->
  createGame userId s
  = (match find_user userId s with
     | Some u =>
         Ok (Some (mkGameView (S (nextId s)) None pending
                              (mkProgressView [] (mkPlayerView (nextId s) (login u)) 0)
                              None (clock s) None None))
     | None => Throw somethingIsWrongException
     end,
     store_created userId s).
Proof.
  intros Hf. rewrite createGame_eq. unfold try_catch, bind.
  rewrite getExtendedGameById_run, find_game_created_new by exact Hf.
  cbn [option_map]. unfold load_game.
  cbn [new_game firstPlayerProgressId secondPlayerProgressId gr_firstPlayerProgress
       load_progress gr_game game_id status createdAt startGameDate finishGameDate].
  rewrite find_progress_created_new by exact Hf.
  cbn [new_progress progress_userId]. rewrite find_user_store_created.
  destruct (find_user userId s); reflexivity.
Qed.

(** X3: in every store the matchmaker reaches, whatever a [createGame] call
    answers, [getById] on the id generated for the new game returns the
    pending row bound to the new progress with no second player; a view the
    call returns carries that id; and [getById] on any other id answers as
    before the call. *)
Theorem createGame_then_getById userId s r s' :
  reachable s ->
  createGame userId s = (r, s') ->
  getById (S (nextId s)) s'
  = (Ok (Some (mkGame (S (nextId s)) pending (Some (nextId s)) None (clock s) None None)),
     s') /\
  (forall v, r = Ok (Some v) -> gv_id v = S (nextId s) /\ gv_status v = pending) /\
  (forall id, id <> S (nextId s) -> fst (getById id s') = fst (getById id s)).
Proof.
  intros Hreach Hrun. apply reachable_inv in Hreach. destruct Hreach as [_ [Hf _]].
  rewrite (createGame_run userId Hf) in Hrun. injection Hrun as <- <-.
  split; [|split].
  - rewrite getById_run, find_game_created_new by exact Hf. reflexivity.
  - intros v Hv. destruct (find_user userId s); [|discriminate].
    injection Hv as <-. split; reflexivity.
  - intros id Hne. rewrite !getById_run. cbn [fst]. f_equal.
    now apply find_game_created_other.
Qed.


Lemma find_exists {A} (f : A -> bool) l x :
  In x l -> f x = true -> exists y, find f l = Some y.
Proof.
  intros Hin Hf. destruct (find f l) as [y|] eqn:E; [eauto|].
  rewrite (find_none _ _ E x Hin) in Hf. discriminate.
Qed.

Lemma least_id_In l g : least_id l = Some g -> In g l.
Proof.
  revert g. induction l as [|x l IH]; intros g H; cbn in H; [discriminate|].
  destruct (least_id l) as [h|].
  - destruct (game_id x <=? game_id h); injection H as <-; [now left | right; now apply IH].
  - injection H as <-. now left.
Qed.

Lemma least_id_nonempty l : l <> [] -> exists g, least_id l = Some g.
Proof.
  destruct l as [|x l]; [contradiction|]. intros _. cbn.
  destruct (least_id l) as [h|]; [|eauto].
  destruct (game_id x <=? game_id h); eauto.
Qed.

Lemma least_id_least l g :
  least_id l = Some g -> forall x, In x l -> game_id g <= game_id x.
Proof.
  revert g. induction l as [|y l IH]; intros g H x Hx; [destruct Hx|].
  cbn in H. destruct (least_id l) as [h|] eqn:Eh.
  - destruct (game_id y <=? game_id h) eqn:E; injection H as <-.
    + apply Nat.leb_le in E. destruct Hx as [<-|Hx]; [lia|].
      specialize (IH h eq_refl x Hx). lia.
    + apply Nat.leb_gt in E. destruct Hx as [<-|Hx]; [lia|]. now apply IH.
  - injection H as <-. destruct Hx as [<-|Hx]; [lia|].
    destruct l; [destruct Hx|]. cbn in Eh.
    destruct (least_id l); [destruct (_ <=? _)|]; discriminate.
Qed.

Lemma find_one_some f l g : find_one f l = Some g -> In g l /\ f g = true.
Proof. intros H. apply least_id_In in H. now apply filter_In in H. Qed.

Lemma find_one_exists f l x :
  In x l -> f x = true -> exists y, find_one f l = Some y.
Proof.
  intros Hin Hf. apply least_id_nonempty. intros E.
  assert (H : In x (filter f l)) by (apply filter_In; auto).
  rewrite E in H. destruct H.
Qed.

Lemma find_one_none f l :
  find_one f l = None -> forall x, In x l -> f x = false.
Proof.
  intros H x Hin. destruct (f x) eqn:E; [|reflexivity].
  destruct (@find_one_exists f l x Hin E) as [y Hy]. congruence.
Qed.

Lemma find_one_ext_in f g l :
  (forall x, In x l -> f x = g x) -> find_one f l = find_one g l.
Proof. intros H. unfold find_one. f_equal. now apply filter_ext_in. Qed.

Lemma find_one_app_false f l x :
  f x = false -> find_one f (l ++ [x]) = find_one f l.
Proof.
  intros H. unfold find_one. rewrite filter_app. cbn. rewrite H. now rewrite app_nil_r.
Qed.

Lemma getMyCurrentGameInPendingSecondPalyer_run userId s :
  getMyCurrentGameInPendingSecondPalyer userId s
  = (Ok (option_map
           (fun g => mkPendingGameOfUser (mkIExtendedGame g (Some userId) None)
                                         (load_progress s (firstPlayerProgressId g)))
           (find_one (pending_of_user userId s) (games s))),
     s).
Proof.
  unfold getMyCurrentGameInPendingSecondPalyer, try_catch, bind, get.
  destruct (find_one (pending_of_user userId s) (games s)); reflexivity.
Qed.

Lemma getActiveGameOfUser_run userId s :
  getActiveGameOfUser userId s
  = (Ok (option_map (load_game s) (find_one (active_of_user userId s) (games s))), s).
Proof.
  unfold getActiveGameOfUser, try_catch, bind, get.
  destruct (find_one (active_of_user userId s) (games s)); reflexivity.
Qed.

Lemma played_by_new_progress userId s t :
  find_progress (nextId s) t = Some (new_progress userId s) ->
  played_by userId t (Some (nextId s)) = true.
Proof.
  intros H. unfold played_by, player_userId. rewrite H. cbn. apply String.eqb_refl.
Qed.

(** X6: in every store the matchmaker reaches, after a [createGame] call of
    a user (whatever the call answered),
    [getMyCurrentGameInPendingSecondPalyer] for that user finds a game of
    the table that is pending and whose first player's progress belongs to
    the user; the answer carries the user's id and [questions: null]. *)
Theorem createGame_then_my_pending_game userId s r s' :
  reachable s ->
  createGame userId s = (r, s') ->
  exists mine,
    getMyCurrentGameInPendingSecondPalyer userId s' = (Ok (Some mine), s') /\
    In (ieg_game (pgu_slot mine)) (games s') /\
    status (ieg_game (pgu_slot mine)) = pending /\
    player_userId s' (firstPlayerProgressId (ieg_game (pgu_slot mine))) = Some userId /\
    ieg_userId (pgu_slot mine) = Some userId /\
    ieg_questions (pgu_slot mine) = None.
Proof.
  intros Hreach Hrun. apply reachable_inv in Hreach. destruct Hreach as [_ [Hf _]].
  rewrite (createGame_run userId Hf) in Hrun. injection Hrun as _ <-.
  assert (Hnew : pending_of_user userId (store_created userId s) (new_game s) = true).
  { unfold pending_of_user. cbn [new_game status status_eqb firstPlayerProgressId andb].
    apply played_by_new_progress. now apply find_progress_created_new. }
  destruct (@find_one_exists (pending_of_user userId (store_created userId s))
              (games (store_created userId s)) (new_game s)) as [g Hg];
    [cbn; apply in_or_app; right; now left | exact Hnew |].
  rewrite getMyCurrentGameInPendingSecondPalyer_run, Hg. cbn [option_map].
  eexists. split; [reflexivity|]. cbn [pgu_slot ieg_game ieg_userId ieg_questions].
  apply find_one_some in Hg. destruct Hg as [Hin Hp].
  unfold pending_of_user in Hp. apply andb_true_iff in Hp. destruct Hp as [Hst Hpl].
  apply status_eqb_eq in Hst. unfold played_by in Hpl.
  destruct (player_userId (store_created userId s) (firstPlayerProgressId g)) as [u|] eqn:Eu;
    [|discriminate].
  apply String.eqb_eq in Hpl. subst u. repeat split; assumption.
Qed.

(** X7: [getMyCurrentGameInPendingSecondPalyer] leaves the store alone and
    answers with a game exactly when the user has one waiting: it answers
    none if and only if no game of the table is pending with a first player
    whose progress belongs to the user; a game it returns is such a game, of
    least id among them, handed back with the user's id as [userId] and
    [questions: null].  In particular it finds a game whenever the slot that
    [getGameInPendingSecondPalyer] offers is the user's own. *)
Theorem my_pending_game_found_iff_waiting userId s :
  snd (getMyCurrentGameInPendingSecondPalyer userId s) = s /\
  (fst (getMyCurrentGameInPendingSecondPalyer userId s) = Ok None <->
   forall g, In g (games s) -> pending_of_user userId s g = false) /\
  (forall mine,
      fst (getMyCurrentGameInPendingSecondPalyer userId s) = Ok (Some mine) ->
      In (ieg_game (pgu_slot mine)) (games s) /\
      status (ieg_game (pgu_slot mine)) = pending /\
      player_userId s (firstPlayerProgressId (ieg_game (pgu_slot mine))) = Some userId /\
      (forall g, In g (games s) -> pending_of_user userId s g = true ->
                 game_id (ieg_game (pgu_slot mine)) <= game_id g) /\
      ieg_userId (pgu_slot mine) = Some userId /\
      ieg_questions (pgu_slot mine) = None) /\
  (forall slot,
      fst (getGameInPendingSecondPalyer s) = Ok (Some slot) ->
      ieg_userId slot = Some userId ->
      exists mine, fst (getMyCurrentGameInPendingSecondPalyer userId s) = Ok (Some mine)).
Proof.
  rewrite getMyCurrentGameInPendingSecondPalyer_run. cbn [fst snd].
  split; [reflexivity|]. split; [|split].
  - split.
    + intros H. destruct (find_one (pending_of_user userId s) (games s)) eqn:E;
        [discriminate|]. now apply find_one_none.
    + intros H. destruct (find_one (pending_of_user userId s) (games s)) as [g|] eqn:E;
        [|reflexivity].
      apply find_one_some in E. destruct E as [Hin Hp]. rewrite (H g Hin) in Hp. discriminate.
  - intros mine Hmine.
    destruct (find_one (pending_of_user userId s) (games s)) as [g|] eqn:E; [|discriminate].
    injection Hmine as <-. cbn [pgu_slot ieg_game ieg_userId ieg_questions].
    pose proof (least_id_least _ E) as Hleast.
    apply find_one_some in E. destruct E as [Hin Hp].
    unfold pending_of_user in Hp. apply andb_true_iff in Hp. destruct Hp as [Hst Hpl].
    apply status_eqb_eq in Hst. unfold played_by in Hpl.
    destruct (player_userId s (firstPlayerProgressId g)) as [u|] eqn:Eu; [|discriminate].
    apply String.eqb_eq in Hpl. subst u.
    split; [exact Hin|]. split; [exact Hst|]. split; [reflexivity|].
    split; [|split; reflexivity].
    intros g' Hin' Hp'. apply Hleast. apply filter_In. auto.
  - intros slot Hslot Huser.
    rewrite getGameInPendingSecondPalyer_run in Hslot. cbn [fst] in Hslot.
    destruct (getRawOne (filter pending_with_first_player (games s))) as [g|] eqn:Hfind; [|discriminate].
    cbn [option_map] in Hslot. injection Hslot as <-. cbn [ieg_userId] in Huser.
    apply getRawOne_filter_some in Hfind. destruct Hfind as [Hin Hp].
    destruct (@find_one_exists (pending_of_user userId s) (games s) g Hin) as [y Hy].
    + unfold pending_of_user, played_by.
      unfold pending_with_first_player in Hp. apply andb_true_iff in Hp. destruct Hp as [-> _].
      change (player_userId s (firstPlayerProgressId g)) with (first_player_userId s g).
      rewrite Huser. cbn. apply String.eqb_refl.
    + rewrite Hy. eexists. reflexivity.
Qed.

(** X8: once a [connectToGame] call on a game has not thrown, that game is
    off the market: neither [getGameInPendingSecondPalyer] nor
    [getMyCurrentGameInPendingSecondPalyer], for any user, returns a game
    with its id. *)
Theorem joined_game_no_longer_open userId existedGame s answer s' :
  connectToGame userId existedGame s = (Ok answer, s') ->
  let gameId := game_id (ieg_game existedGame) in
  (forall slot, fst (getGameInPendingSecondPalyer s') = Ok (Some slot) ->
                game_id (ieg_game slot) <> gameId) /\
  (forall other mine,
      fst (getMyCurrentGameInPendingSecondPalyer other s') = Ok (Some mine) ->
      game_id (ieg_game (pgu_slot mine)) <> gameId).
Proof.
  intros Hrun gameId.
  assert (Hact : forall g, In g (games s') -> game_id g = gameId -> status g = active).
  { destruct (connectToGame_run userId existedGame s)
      as [[_ E]|[[_ [_ E]]|[_ [_ [E _]]]]]; fold gameId in E; rewrite Hrun in E;
      try discriminate.
    cbn [snd] in E. subst s'. cbn [store_activated with_games games].
    intros g Hin Hid. now destruct (@activated_games_bound gameId s g Hin Hid). }
  split.
  - intros slot Hslot. rewrite getGameInPendingSecondPalyer_run in Hslot. cbn [fst] in Hslot.
    destruct (getRawOne (filter pending_with_first_player (games s'))) as [g|] eqn:Hfind; [|discriminate].
    injection Hslot as <-. cbn [ieg_game]. apply getRawOne_filter_some in Hfind.
    destruct Hfind as [Hin Hp]. intros Hid. specialize (Hact g Hin Hid).
    unfold pending_with_first_player in Hp. rewrite Hact in Hp. discriminate.
  - intros other mine Hmine. rewrite getMyCurrentGameInPendingSecondPalyer_run in Hmine.
    cbn [fst] in Hmine.
    destruct (find_one (pending_of_user other s') (games s')) as [g|] eqn:Hfind;
      [|discriminate].
    injection Hmine as <-. cbn [pgu_slot ieg_game]. apply find_one_some in Hfind.
    destruct Hfind as [Hin Hp]. intros Hid. specialize (Hact g Hin Hid).
    unfold pending_of_user in Hp. rewrite Hact in Hp. discriminate.
Qed.

Lemma find_game_unique l g :
  NoDup (map game_id l) -> In g l -> find (fun x => game_id x =? game_id g) l = Some g.
Proof.
  induction l as [|x l IH]; intros Hnd Hin; [destruct Hin|].
  cbn in Hnd. inversion Hnd as [|? ? Hnotin Hnd']; subst. cbn.
  destruct Hin as [->|Hin]; [now rewrite Nat.eqb_refl|].
  destruct (Nat.eqb_spec (game_id x) (game_id g)) as [E|_]; [|now apply IH].
  exfalso. apply Hnotin. rewrite E. now apply in_map.
Qed.

Lemma find_progress_resolves s p :
  (exists pr, In pr (progresses s) /\ progress_id pr = p) ->
  exists pr, find_progress p s = Some pr.
Proof.
  intros [pr [Hin Hid]]. unfold find_progress.
  apply find_exists with pr; [exact Hin | now apply Nat.eqb_eq].
Qed.

Lemma find_question_resolves s i :
  (exists q, In q (questions s) /\ question_id q = i) ->
  exists q, find_question i s = Some q.
Proof.
  intros [q [Hin Hid]]. unfold find_question.
  apply find_exists with q; [exact Hin | now apply Nat.eqb_eq].
Qed.


Lemma first_player_userId_created userId s g :
  references_resolve s -> In g (games s) ->
  first_player_userId (store_created userId s) g = first_player_userId s g.
Proof.
  intros [_ [_ [Hl _]]] Hin. unfold first_player_userId.
  destruct (firstPlayerProgressId g) as [p|] eqn:Ep; [|reflexivity].
  destruct (@find_progress_resolves s p (Hl g p Hin (or_introl Ep))) as [pr Hpr].
  rewrite Hpr. unfold find_progress in *.
  cbn [store_created with_games progresses store_progress with_progresses].
  now rewrite (find_app_some _ _ _ Hpr).
Qed.

Lemma find_progress_activated_new userId gameId s :
  ids_fresh s ->
  find_progress (nextId s) (store_activated userId gameId s) = Some (new_progress userId s).
Proof.
  intros [_ Hfp]. unfold find_progress.
  cbn [store_activated with_games store_assigned with_gameQuestions store_drawn
       with_entropy store_progress with_progresses progresses].
  rewrite find_app_none.
  - cbn. rewrite Nat.eqb_refl. reflexivity.
  - apply find_none_iff. intros p Hin. specialize (Hfp p Hin). apply Nat.eqb_neq. lia.
Qed.

Lemma find_progress_activated_old userId gameId s p pr :
  find_progress p s = Some pr ->
  find_progress p (store_activated userId gameId s) = Some pr.
Proof.
  unfold find_progress.
  cbn [store_activated with_games store_assigned with_gameQuestions store_drawn
       with_entropy store_progress with_progresses progresses].
  apply find_app_some.
Qed.

Lemma active_game_found userId t g :
  In g (games t) -> active_of_user userId t g = true ->
  exists game,
    getActiveGameOfUser userId t = (Ok (Some game), t) /\
    In (gr_game game) (games t) /\
    status (gr_game game) = active /\
    (played_by userId t (firstPlayerProgressId (gr_game game)) = true \/
     played_by userId t (secondPlayerProgressId (gr_game game)) = true).
Proof.
  intros Hin Hact.
  destruct (@find_one_exists (active_of_user userId t) (games t) g Hin Hact) as [y Hy].
  exists (load_game t y). rewrite getActiveGameOfUser_run, Hy. split; [reflexivity|].
  cbn [load_game gr_game]. apply find_one_some in Hy. destruct Hy as [Hyin Hy].
  split; [exact Hyin|]. unfold active_of_user in Hy. apply orb_true_iff in Hy.
  destruct Hy as [Hy|Hy]; apply andb_true_iff in Hy; destruct Hy as [Hst Hpl];
    apply status_eqb_eq in Hst; auto.
Qed.

(** X10: in every store the matchmaker reaches, after a successful
    [connectToGame] on the slot that [getGameInPendingSecondPalyer] offered,
    [getActiveGameOfUser] finds an active game of the table for the slot's
    first player and for the joining user alike, the player being one of its
    two players. *)
Theorem join_gives_both_players_an_active_game s first_user userId existedGame v s' :
  reachable s ->
  fst (getGameInPendingSecondPalyer s) = Ok (Some existedGame) ->
  ieg_userId existedGame = Some first_user ->
  connectToGame userId existedGame s = (Ok (Some v), s') ->
  forall player, player = first_user \/ player = userId ->
  exists game,
    getActiveGameOfUser player s' = (Ok (Some game), s') /\
    In (gr_game game) (games s') /\
    status (gr_game game) = active /\
    (played_by player s' (firstPlayerProgressId (gr_game game)) = true \/
     played_by player s' (secondPlayerProgressId (gr_game game)) = true).
Proof.
  intros Hreach Hslot Huser Hrun player Hplayer.
  apply reachable_inv in Hreach. destruct Hreach as [_ [Hf _]].
  rewrite getGameInPendingSecondPalyer_run in Hslot. cbn [fst] in Hslot.
  destruct (getRawOne (filter pending_with_first_player (games s))) as [g0|] eqn:Hfind; [|discriminate].
  cbn [option_map] in Hslot. injection Hslot as <-. cbn [ieg_game ieg_userId] in *.
  apply getRawOne_filter_some in Hfind. destruct Hfind as [Hin0 _].
  set (eg := mkIExtendedGame g0 _ None) in Hrun.
  destruct (connectToGame_run userId eg s)
    as [[_ E]|[[_ [_ E]]|[_ [_ [E _]]]]];
    try (rewrite Hrun in E; discriminate).
  rewrite Hrun in E. cbn [snd eg ieg_game] in E. subst s'.
  apply active_game_found with (activate (Some (nextId s)) (clock s) g0).
  - cbn [store_activated with_games games]. unfold activated_games.
    apply in_map_iff. exists g0. rewrite Nat.eqb_refl. auto.
  - unfold active_of_user. cbn [activate status status_eqb andb
                                 firstPlayerProgressId secondPlayerProgressId].
    apply orb_true_iff. destruct Hplayer as [->| ->].
    + left. unfold first_player_userId in Huser. unfold played_by, player_userId.
      destruct (firstPlayerProgressId g0) as [p|]; [|discriminate].
      destruct (find_progress p s) as [pr|] eqn:Hpr; [|discriminate].
      rewrite (@find_progress_activated_old userId (game_id g0) s p pr Hpr).
      cbn in *. injection Huser as ->. apply String.eqb_refl.
    + right. apply played_by_new_progress. now apply find_progress_activated_new.
Qed.

Lemma mapM_prepare_question_resolved (s t : Store) rows :
  (forall r, In r rows -> exists q, find_question (gq_questionId r) s = Some q) ->
  exists qs,
    mapM prepare_question
         (map (fun r => mkGameQuestionRel r (find_question (gq_questionId r) s)) rows) t
    = (Ok qs, t) /\
    Forall2 (fun r qv => qv_id qv = gq_id r /\
                         exists q, find_question (gq_questionId r) s = Some q /\
                                   qv_body qv = body q)
            rows qs.
Proof.
  induction rows as [|r rows IH]; intros H.
  - exists []. split; [reflexivity | constructor].
  - destruct IH as [qs [Hrun Hall]]; [intros x Hx; apply H; now right|].
    destruct (H r (or_introl eq_refl)) as [q Hq].
    exists (mkQuestionView (gq_id r) (body q) :: qs). split.
    + cbn [map mapM]. unfold bind at 1. unfold prepare_question at 1.
      cbn [gqr_question gqr_row]. rewrite Hq. cbn [deref]. unfold bind at 1, ret at 1.
      unfold ret at 1. unfold bind at 1. rewrite Hrun. reflexivity.
    + constructor; [|exact Hall]. split; [reflexivity|]. exists q. auto.
Qed.

(** X12: when a join goes through.  In every store the matchmaker reaches,
    [connectToGame] on the slot that [getGameInPendingSecondPalyer] offers
    succeeds as soon as the slot's first player and the joining user have
    user rows, the game has no question rows yet and the pool holds the
    configured count of questions.  The response shows the game active and
    started at the time of the call, the first player under their progress
    id and login with their score, the joining player under the new progress
    id and their login with score 0, and one question per GameQuestion row
    of the game, in row order: its [id] is the row's id and its [body] the
    body of the row's question. *)
Theorem connectToGame_succeeds s existedGame first_user fu userId u :
  reachable s ->
  fst (getGameInPendingSecondPalyer s) = Ok (Some existedGame) ->
  ieg_userId existedGame = Some first_user ->
  find_user first_user s = Some fu ->
  find_user userId s = Some u ->
  game_rows (game_id (ieg_game existedGame)) s = [] ->
  questionsCount s <= length (questions s) ->
  let gameId := game_id (ieg_game existedGame) in
  exists first_progress qs,
    connectToGame userId existedGame s
    = (Ok (Some (mkGameView
                   gameId (Some qs) active
                   (mkProgressView [] (mkPlayerView (progress_id first_progress) (login fu))
                                   (score first_progress))
                   (Some (mkProgressView [] (mkPlayerView (nextId s) (login u)) 0))
                   (createdAt (ieg_game existedGame))
                   (Some (clock s))
                   (finishGameDate (ieg_game existedGame)))),
       store_activated userId gameId s) /\
    firstPlayerProgressId (ieg_game existedGame) = Some (progress_id first_progress) /\
    find_progress (progress_id first_progress) s = Some first_progress /\
    length qs = questionsCount s /\
    Forall2 (fun r qv => qv_id qv = gq_id r /\
                         exists q, find_question (gq_questionId r) s = Some q /\
                                   qv_body qv = body q)
            (game_rows gameId (store_activated userId gameId s)) qs.
Proof.
  intros Hreach Hslot Hfirst Hfu Hu Hrows Hpool gameId.
  pose proof (reachable_refs_ok Hreach) as [Hnd _].
  apply reachable_inv in Hreach. destruct Hreach as [_ [Hf _]].
  rewrite getGameInPendingSecondPalyer_run in Hslot. cbn [fst] in Hslot.
  destruct (getRawOne (filter pending_with_first_player (games s))) as [g0|] eqn:Hfind; [|discriminate].
  cbn [option_map] in Hslot. injection Hslot as <-.
  cbn [ieg_game ieg_userId] in *. subst gameId. set (gameId := game_id g0) in *.
  apply getRawOne_filter_some in Hfind. destruct Hfind as [Hin0 _].
  unfold first_player_userId in Hfirst.
  destruct (firstPlayerProgressId g0) as [p1|] eqn:Hp1; [|discriminate].
  destruct (find_progress p1 s) as [fp|] eqn:Hfp; [|discriminate].
  cbn in Hfirst. injection Hfirst as Hfpu.
  assert (Hp1id : progress_id fp = p1).
  { unfold find_progress in Hfp. apply find_some in Hfp. now apply Nat.eqb_eq. }
  set (t := store_activated userId gameId s).
  assert (Hrows_t : game_rows gameId t = new_rows gameId s).
  { unfold game_rows, t.
    cbn [store_activated with_games gameQuestions store_assigned with_gameQuestions].
    rewrite filter_app. fold (game_rows gameId s). rewrite Hrows. cbn [app].
    unfold new_rows. apply stamp_filter_same. }
  destruct (@mapM_prepare_question_resolved s t (new_rows gameId s)) as [qs [Hqs Hall]].
  { intros r Hr. unfold new_rows in Hr.
    destruct (stamp_question _ _ _ _ _ Hr) as [q [Hq Hid]].
    apply find_question_resolves. exists q. split; [|now symmetry].
    unfold drawn_questions in Hq. now apply draw_incl in Hq. }
  exists fp, qs. rewrite Hrows_t.
  split; [|split; [now rewrite Hp1id | split; [now rewrite Hp1id | split; [|exact Hall]]]].
  2:{ apply Forall2_length in Hall. rewrite <- Hall. unfold new_rows.
      rewrite stamp_length. unfold drawn_questions. now apply draw_length. }
  rewrite connectToGame_eq. cbv zeta. cbn [ieg_game]. fold gameId.
  replace (length (questions s) <? questionsCount s) with false
    by (symmetry; now apply Nat.ltb_ge).
  replace (existsb (fun r => gq_gameId r =? gameId) (gameQuestions s)) with false
    by (symmetry; now apply existsb_false_filter).
  fold t. unfold try_catch, bind. rewrite getExtendedGameById_run.
  assert (Hgame : find_game gameId t = Some (activate (Some (nextId s)) (clock s) g0)).
  { unfold find_game, t. cbn [store_activated with_games games]. unfold activated_games.
    rewrite find_game_activated. unfold gameId.
    now rewrite (@find_game_unique (games s) g0 Hnd Hin0). }
  rewrite Hgame. cbn [option_map assemble]. unfold bind.
  cbn [load_game gr_questions gr_firstPlayerProgress gr_secondPlayerProgress gr_game
       activate game_id firstPlayerProgressId secondPlayerProgressId status createdAt
       startGameDate finishGameDate].
  fold gameId.
  assert (Hsorted : sort_by_order (load_questions t gameId)
                    = map (fun r => mkGameQuestionRel r (find_question (gq_questionId r) s))
                          (new_rows gameId s)).
  { apply sort_by_order_canonical with 0.
    - rewrite map_map, length_map. cbn [gqr_row]. unfold new_rows.
      rewrite stamp_length. apply stamp_order.
    - unfold load_questions, questions_of_game. rewrite Hrows_t. apply reorder_perm. }
  rewrite Hsorted, Hqs. rewrite Hp1. cbn [load_progress].
  pose proof (@find_progress_activated_old userId gameId s p1 fp Hfp) as Hold.
  pose proof (@find_progress_activated_new userId gameId s Hf) as Hnew.
  fold t in Hold, Hnew. rewrite Hold, Hnew.
  cbn [progress_view]. unfold progress_view, bind.
  cbn [deref pr_user pr_row new_progress progress_userId progress_id score ret].
  change (find_user (progress_userId fp) t) with (find_user (progress_userId fp) s).
  change (find_user userId t) with (find_user userId s).
  rewrite Hfpu, Hfu, Hu. cbn [deref ret]. rewrite Hp1id. reflexivity.
Qed.

(** X13: the sort of [connectToGame] rearranges the question list without
    losing or adding an entry, leaves it in non-decreasing [order], and keeps
    entries of equal [order] in the sequence they had (it is stable). *)
Theorem sort_by_order_sorts l :
  Permutation l (sort_by_order l) /\
  Sorted order_le (sort_by_order l) /\
  (forall k, filter (fun q => order (gqr_row q) =? k) (sort_by_order l)
             = filter (fun q => order (gqr_row q) =? k) l).
Proof.
  unfold sort_by_order. induction l as [|x l [IHp [IHs IHf]]]; cbn [fold_right].
  - repeat split; constructor.
  - split; [|split].
    + rewrite <- insert_by_order_perm. now apply perm_skip.
    + now apply insert_by_order_sorted.
    + intros k. rewrite insert_by_order_filter. cbn [filter]. now rewrite IHf.
Qed.

Lemma load_progress_created userId s g link :
  references_resolve s -> In g (games s) ->
  link = firstPlayerProgressId g \/ link = secondPlayerProgressId g ->
  load_progress (store_created userId s) link = load_progress s link /\
  player_userId (store_created userId s) link = player_userId s link.
Proof.
  intros [_ [_ [Hl _]]] Hin Hlink.
  destruct link as [p|]; [|split; reflexivity].
  destruct (@find_progress_resolves s p) as [pr Hpr].
  { apply (Hl g p Hin). destruct Hlink as [->| ->]; auto. }
  assert (H : find_progress p (store_created userId s) = Some pr).
  { unfold find_progress in *.
    cbn [store_created with_games progresses store_progress with_progresses].
    now apply find_app_some. }
  unfold load_progress, player_userId. rewrite H, Hpr. split; reflexivity.
Qed.

(** X11: in every store the matchmaker reaches, a [createGame] call changes
    nobody's active game: [getActiveGameOfUser] answers for every user
    exactly what it answered before, relations included. *)
Theorem createGame_keeps_active_games userId s r s' player :
  reachable s ->
  createGame userId s = (r, s') ->
  getActiveGameOfUser player s' = (fst (getActiveGameOfUser player s), s').
Proof.
  intros Hreach Hrun. pose proof (reachable_refs_ok Hreach) as Hrefs.
  apply reachable_inv in Hreach. destruct Hreach as [_ [Hf _]].
  rewrite (createGame_run userId Hf) in Hrun. injection Hrun as _ <-.
  rewrite !getActiveGameOfUser_run. cbn [fst]. f_equal. f_equal.
  assert (Hsame : forall g, In g (games s) ->
            active_of_user player (store_created userId s) g = active_of_user player s g).
  { intros g Hin. unfold active_of_user, played_by.
    destruct (@load_progress_created userId s g (firstPlayerProgressId g) Hrefs Hin
                (or_introl eq_refl)) as [_ ->].
    destruct (@load_progress_created userId s g (secondPlayerProgressId g) Hrefs Hin
                (or_intror eq_refl)) as [_ ->].
    reflexivity. }
  cbn [store_created with_games games]. fold (store_created userId s).
  rewrite find_one_app_false.
  2:{ unfold active_of_user. reflexivity. }
  rewrite (@find_one_ext_in _ _ (games s) Hsame).
  destruct (find_one (active_of_user player s) (games s)) as [g|] eqn:Hfind; [|reflexivity].
  cbn [option_map]. f_equal.
  apply find_one_some in Hfind. destruct Hfind as [Hin _].
  unfold load_game. f_equal.
  - now destruct (@load_progress_created userId s g (firstPlayerProgressId g) Hrefs Hin
                    (or_introl eq_refl)).
  - now destruct (@load_progress_created userId s g (secondPlayerProgressId g) Hrefs Hin
                    (or_intror eq_refl)).
Qed.

Lemma NoDup_app_inv {A} (l l' : list A) :
  NoDup (l ++ l') -> NoDup l /\ NoDup l' /\ forall a, In a l -> ~ In a l'.
Proof.
  induction l as [|x l IH]; cbn; intros H.
  - split; [constructor|]. split; [exact H | intros a []].
  - inversion H as [|? ? Hx Hnd]; subst. destruct (IH Hnd) as [H1 [H2 H3]].
    split; [|split; [exact H2|]].
    + constructor; [|exact H1]. intros Hin. apply Hx. apply in_or_app. now left.
    + intros a [<-|Ha]; [|now apply H3]. intros Hin. apply Hx. apply in_or_app. now right.
Qed.

Section Activation.

Variables (gameId n : Uuid) (now : Timestamp).

Let bind_second (g : GameEntity) : GameEntity :=
  if game_id g =? gameId then activate (Some n) now g else g.

Lemma bind_second_absent l :
  ~ In gameId (map game_id l) -> map bind_second l = l.
Proof.
  induction l as [|x l IH]; intros H; [reflexivity|]. cbn [map]. unfold bind_second at 1.
  destruct (Nat.eqb_spec (game_id x) gameId) as [E|_].
  - exfalso. apply H. now left.
  - f_equal. apply IH. intros Hin. apply H. now right.
Qed.

Lemma bind_second_links l p :
  In p (flat_map progress_links (map bind_second l)) ->
  In p (flat_map progress_links l) \/ p = n.
Proof.
  induction l as [|x l IH]; cbn [map flat_map]; [tauto|].
  intros H. apply in_app_or in H. destruct H as [H|H].
  - unfold bind_second in H. destruct (game_id x =? gameId).
    + unfold progress_links in H. cbn [activate firstPlayerProgressId
        secondPlayerProgressId link_list] in H.
      apply in_app_or in H. destruct H as [H|[<-|[]]]; [|now right].
      left. apply in_or_app. left. unfold progress_links. apply in_or_app. now left.
    + left. apply in_or_app. now left.
  - destruct (IH H) as [H'|H']; [|now right]. left. apply in_or_app. now right.
Qed.

Lemma bind_second_NoDup l :
  NoDup (map game_id l) ->
  (forall p, In p (flat_map progress_links l) -> p < n) ->
  NoDup (flat_map progress_links l) ->
  NoDup (flat_map progress_links (map bind_second l)).
Proof.
  induction l as [|x l IH]; intros Hids Hlt Hnd; [constructor|].
  cbn [map flat_map] in *. inversion Hids as [|? ? Hx Hids']; subst.
  destruct (NoDup_app_inv _ _ Hnd) as [Hndx [Hndl Hdisj]].
  assert (Hltl : forall p, In p (flat_map progress_links l) -> p < n)
    by (intros p Hp; apply Hlt, in_or_app; now right).
  unfold bind_second at 1. destruct (Nat.eqb_spec (game_id x) gameId) as [E|E].
  - rewrite bind_second_absent by (now rewrite <- E).
    unfold progress_links at 1.
    cbn [activate firstPlayerProgressId secondPlayerProgressId link_list].
    apply NoDup_app; [|exact Hndl|].
    + apply NoDup_app; [destruct (firstPlayerProgressId x); repeat constructor; intros []
                       | repeat constructor; intros [] |].
      intros a Ha [<-|[]].
      assert (n < n); [|lia]. apply Hlt. apply in_or_app. left.
      unfold progress_links. apply in_or_app. now left.
    + intros a Ha Hin. apply in_app_or in Ha. destruct Ha as [Ha|[<-|[]]].
      * apply (Hdisj a); [|exact Hin]. unfold progress_links. apply in_or_app. now left.
      * specialize (Hltl _ Hin). lia.
  - apply NoDup_app; [exact Hndx | now apply IH |].
    intros a Ha Hin. destruct (bind_second_links _ _ Hin) as [Hin'| ->].
    + now apply (Hdisj a).
    + assert (n < n); [|lia]. apply Hlt. apply in_or_app. now left.
Qed.

End Activation.

Lemma links_below_generator s p :
  ids_fresh s -> references_resolve s -> In p (all_progress_links s) -> p < nextId s.
Proof.
  intros [_ Hfp] [_ [_ [Hl _]]] Hin. unfold all_progress_links in Hin.
  apply in_flat_map in Hin. destruct Hin as [g [Hg Hp]].
  unfold progress_links in Hp. apply in_app_or in Hp.
  destruct (Hl g p Hg) as [pr [Hpr <-]]; [|now apply Hfp].
  destruct Hp as [Hp|Hp]; [left|right].
  - destruct (firstPlayerProgressId g); cbn in Hp; [|destruct Hp].
    destruct Hp as [->|[]]. reflexivity.
  - destruct (secondPlayerProgressId g); cbn in Hp; [|destruct Hp].
    destruct Hp as [->|[]]. reflexivity.
Qed.

(** X14: in every store the matchmaker reaches no Progress is linked twice:
    the progress ids that the games link as first or second player are
    pairwise distinct, across games and within one game. *)
Theorem reachable_progress_linked_once s :
  reachable s -> NoDup (all_progress_links s).
Proof.
  induction 1 as [s [_ [_ Hg]]|c s Hreach IH].
  - unfold all_progress_links. rewrite Hg. constructor.
  - pose proof (reachable_refs_ok Hreach) as Hrefs.
    apply reachable_inv in Hreach. destruct Hreach as [_ [Hf _]].
    pose proof (fun p => @links_below_generator s p Hf Hrefs) as Hlt.
    destruct c as [u|u eg]; cbn [exec].
    + rewrite createGame_store. unfold all_progress_links in *.
      cbn [store_created with_games games]. rewrite flat_map_app. cbn.
      apply NoDup_app; [exact IH | repeat constructor; intros [] |].
      intros a Ha [<-|[]]. specialize (Hlt _ Ha). lia.
    + destruct (connectToGame_store u eg s) as [E|[E|[_ [_ E]]]]; rewrite E;
        try exact IH.
      unfold all_progress_links in *. cbn [store_activated with_games games].
      unfold activated_games. destruct Hrefs as [Hnd _].
      now apply bind_second_NoDup.
Qed.

(** X15: [getActiveGameOfUser] leaves the store alone and answers with a
    game exactly when the user is playing: it answers none if and only if no
    game of the table is active with the user behind its first or its second
    progress (so a user whose games are all pending, or who has none, gets
    none); a game it returns is active, has the user as one of its two
    players, has the least id among such games, and comes as loaded by
    [getExtendedGameById]. *)
Theorem active_game_found_iff_playing userId s :
  snd (getActiveGameOfUser userId s) = s /\
  (fst (getActiveGameOfUser userId s) = Ok None <->
   forall g, In g (games s) ->
             status g = active ->
             played_by userId s (firstPlayerProgressId g) = false /\
             played_by userId s (secondPlayerProgressId g) = false) /\
  (forall game,
      fst (getActiveGameOfUser userId s) = Ok (Some game) ->
      In (gr_game game) (games s) /\
      status (gr_game game) = active /\
      (played_by userId s (firstPlayerProgressId (gr_game game)) = true \/
       played_by userId s (secondPlayerProgressId (gr_game game)) = true) /\
      (forall g, In g (games s) -> active_of_user userId s g = true ->
                 game_id (gr_game game) <= game_id g) /\
      game = load_game s (gr_game game)).
Proof.
  rewrite getActiveGameOfUser_run. cbn [fst snd].
  split; [reflexivity|]. split.
  - split.
    + intros H g Hin Hst.
      destruct (find_one (active_of_user userId s) (games s)) eqn:E; [discriminate|].
      pose proof (find_one_none _ _ E g Hin) as Hg. unfold active_of_user in Hg.
      rewrite Hst in Hg. cbn in Hg. now apply orb_false_iff in Hg.
    + intros H. destruct (find_one (active_of_user userId s) (games s)) as [g|] eqn:E;
        [|reflexivity].
      apply find_one_some in E. destruct E as [Hin Hp]. unfold active_of_user in Hp.
      destruct (status g) eqn:Hst; cbn in Hp; try discriminate.
      destruct (H g Hin Hst) as [H1 H2]. rewrite H1, H2 in Hp. discriminate.
  - intros game Hgame.
    destruct (find_one (active_of_user userId s) (games s)) as [g|] eqn:E; [|discriminate].
    injection Hgame as <-. cbn [load_game gr_game].
    pose proof (least_id_least _ E) as Hleast.
    apply find_one_some in E. destruct E as [Hin Hp].
    split; [exact Hin|]. unfold active_of_user in Hp.
    destruct (status g) eqn:Hst; cbn in Hp; try discriminate.
    split; [reflexivity|]. split; [now apply orb_true_iff in Hp|]. split; [|reflexivity].
    intros g' Hin' Hp'. apply Hleast. apply filter_In. auto.
Qed.

(** X16: a join is not atomic to readers.  When a [connectToGame] call on a
    game without question rows has done its first three store accesses
    (Progress created, questions drawn, questions assigned) and not yet its
    [UPDATE], [getExtendedGameById] shows the game row as it was before the
    call, hence a pending game still pending and without second player, but
    already with the full question set of the configured count, the rows
    carrying the orders 0 .. count-1. *)
Theorem read_between_assignment_and_update userId existedGame s g :
  questionsCount s <= length (questions s) ->
  game_rows (game_id (ieg_game existedGame)) s = [] ->
  find_game (game_id (ieg_game existedGame)) s = Some g ->
  exists t game,
    attempt_run 3 userId existedGame AtCreateProgress s
    = (AtUpdate (Some (mkProgress (nextId s) userId 0 [])), t) /\
    getExtendedGameById (game_id (ieg_game existedGame)) t = (Ok (Some game), t) /\
    gr_game game = g /\
    length (gr_questions game) = questionsCount s /\
    Permutation (map (fun q => order (gqr_row q)) (gr_questions game))
                (seq 0 (questionsCount s)).
Proof.
  intros Hpool Hrows Hg. set (gameId := game_id (ieg_game existedGame)) in *.
  exists (store_assigned userId gameId s), (load_game (store_assigned userId gameId s) g).
  assert (Hid : game_id g = gameId).
  { unfold find_game in Hg. apply find_some in Hg. now apply Nat.eqb_eq. }
  assert (Hq : game_rows gameId (store_assigned userId gameId s) = new_rows gameId s).
  { unfold game_rows. cbn [store_assigned with_gameQuestions gameQuestions].
    rewrite filter_app. fold (game_rows gameId s). rewrite Hrows. cbn [app].
    unfold new_rows. apply stamp_filter_same. }
  assert (Hlen : length (new_rows gameId s) = questionsCount s).
  { unfold new_rows, drawn_questions. rewrite stamp_length. now apply draw_length. }
  split; [|split; [|split; [reflexivity|split]]].
  - unfold attempt_run. rewrite step_create, step_draw.
    change (questions (store_progress userId s)) with (questions s).
    change (questionsCount (store_progress userId s)) with (questionsCount s).
    replace (length (questions s) <? questionsCount s) with false
      by (symmetry; now apply Nat.ltb_ge).
    rewrite step_assign. fold gameId.
    change (gameQuestions (with_entropy _ _)) with (gameQuestions s).
    replace (existsb (fun r => gq_gameId r =? gameId) (gameQuestions s)) with false
      by (symmetry; now apply existsb_false_filter).
    reflexivity.
  - rewrite getExtendedGameById_run.
    change (find_game gameId (store_assigned userId gameId s)) with (find_game gameId s).
    rewrite Hg. reflexivity.
  - cbn [load_game gr_questions]. unfold load_questions.
    rewrite reorder_length. unfold questions_of_game. rewrite length_map, Hid, Hq.
    exact Hlen.
  - cbn [load_game gr_questions]. unfold load_questions.
    transitivity (map (fun q => order (gqr_row q))
                      (questions_of_game (store_assigned userId gameId s) (game_id g))).
    + apply Permutation_map, reorder_perm.
    + unfold questions_of_game. rewrite map_map, Hid, Hq.
      cbn [gqr_row]. unfold new_rows. rewrite stamp_order.
      unfold drawn_questions. now rewrite draw_length.
Qed.

End Repository.

(** * Properties that compare row orders

    From here on the order in which the database lists rows is an explicit
    argument, so that one statement can speak of several. *)

(** The store a call leaves does not depend on the order in which its
    re-read lists the rows, so neither does the set of stores the matchmaker
    reaches. *)
Lemma exec_any_order scan1 scan2 c s : exec scan1 c s = exec scan2 c s.
Proof.
  destruct c as [userId|userId existedGame]; cbn [exec].
  - now rewrite !createGame_store.
  - destruct (connectToGame_run scan1 userId existedGame s)
      as [[H1 E1]|[[H1 [R1 E1]]|[H1 [R1 [E1 _]]]]];
      destruct (connectToGame_run scan2 userId existedGame s)
        as [[H2 E2]|[[H2 [R2 E2]]|[H2 [R2 [E2 _]]]]];
      try lia; try contradiction; rewrite E1, E2; reflexivity.
Qed.

Lemma reachable_any_order scan1 scan2 s : reachable scan1 s -> reachable scan2 s.
Proof.
  induction 1 as [s H|c s _ IH]; [now apply reachable_initial|].
  rewrite (exec_any_order scan1 scan2). now apply reachable_exec.
Qed.

(** The sample stores, as written where the database lists rows in table
    order. *)
Abbreviation alice_waiting := (store_alice_waiting table_order).
Abbreviation bob_joined := (store_bob_joined table_order).
Abbreviation small_pool := (store_small_pool table_order).
Abbreviation two_waiting := (store_two_waiting table_order).

Lemma getRawOne_any {A} (rows : list A) r :
  In r rows -> exists scan, getRawOne scan rows = Some r.
Proof.
  intros Hin. destruct (In_nth rows r r Hin) as [i [Hi Hn]].
  exists [i]. unfold getRawOne. destruct rows as [|r0 rows]; [destruct Hin|].
  cbn [reorder hd_error]. rewrite Nat.mod_small by exact Hi. f_equal.
  transitivity (nth i (r0 :: rows) r); [now apply nth_indep | exact Hn].
Qed.

(** The slots that [getGameInPendingSecondPalyer] may answer with: one for
    each pending game that has a first player. *)
Lemma open_slot_offered s slot :
  (exists scan, fst (getGameInPendingSecondPalyer scan s) = Ok (Some slot)) <->
  (exists g, In g (games s) /\ pending_with_first_player g = true /\
             slot = mkIExtendedGame g (first_player_userId s g) None).
Proof.
  split.
  - intros [scan H]. rewrite getGameInPendingSecondPalyer_run in H. cbn [fst] in H.
    destruct (getRawOne scan (filter pending_with_first_player (games s))) as [g|] eqn:E;
      [|discriminate].
    cbn [option_map] in H. injection H as <-. apply getRawOne_filter_some in E.
    exists g. tauto.
  - intros [g [Hin [Hp ->]]].
    destruct (@getRawOne_any _ (filter pending_with_first_player (games s)) g) as [scan E].
    { apply filter_In. auto. }
    exists scan. rewrite getGameInPendingSecondPalyer_run, E. reflexivity.
Qed.

(** C7 (amended): [getGameInPendingSecondPalyer] answers with at most one
    game and leaves the store alone.  In every store the matchmaker reaches,
    a game it returns is a row of the games table that is pending, has its
    first player bound and has no second player, and it answers none exactly
    when no pending game with a first player exists.  Which of several
    waiting games it returns is not determined by the repository: the query
    orders its rows in no way and takes the first one the database lists, so
    each waiting game is the one returned under some row order; nothing makes
    it the oldest. *)
Theorem getGameInPendingSecondPalyer_any_open_slot scan s r s' :
  reachable scan s ->
  getGameInPendingSecondPalyer scan s = (r, s') ->
  s' = s /\
  (exists found : option IExtendedGame,
     r = Ok found /\
     match found with
     | None => forall g, In g (games s) -> pending_with_first_player g = false
     | Some existedGame =>
         In (ieg_game existedGame) (games s) /\
         status (ieg_game existedGame) = pending /\
         firstPlayerProgressId (ieg_game existedGame) <> None /\
         secondPlayerProgressId (ieg_game existedGame) = None
     end) /\
  (forall g, In g (games s) -> pending_with_first_player g = true ->
     exists scan',
       getGameInPendingSecondPalyer scan' s
       = (Ok (Some (mkIExtendedGame g (first_player_userId s g) None)), s)).
Proof.
  intros Hreach Hrun. apply reachable_inv in Hreach. destruct Hreach as [Hg _].
  rewrite getGameInPendingSecondPalyer_run in Hrun. injection Hrun as <- <-.
  split; [reflexivity|]. split.
  - eexists. split; [reflexivity|].
    destruct (getRawOne scan (filter pending_with_first_player (games s))) as [g|] eqn:Hfind;
      cbn [option_map ieg_game].
    + apply getRawOne_filter_some in Hfind. destruct Hfind as [Hin Hp].
      unfold pending_with_first_player in Hp. apply andb_true_iff in Hp.
      destruct Hp as [Hst Hfirst]. apply status_eqb_eq in Hst.
      destruct (Hg g Hin) as [Hf [[_ Hsnd]|[Hact _]]]; [|congruence]. auto.
    + exact (@getRawOne_filter_none scan _ _ _ Hfind).
  - intros g Hin Hp.
    destruct (@getRawOne_any _ (filter pending_with_first_player (games s)) g) as [scan' E].
    { apply filter_In. auto. }
    exists scan'. rewrite getGameInPendingSecondPalyer_run, E. reflexivity.
Qed.

Lemma getGameInPendingSecondPalyer_any_open_slot_witness :
  snd (getGameInPendingSecondPalyer table_order two_waiting)
  = two_waiting /\
  exists scan',
    getGameInPendingSecondPalyer scan' two_waiting
    = (Ok (Some (mkIExtendedGame (mkGame 103 pending (Some 102) None 7 None None)
                                 (Some carol) None)),
       two_waiting).
Proof.
  destruct (@getGameInPendingSecondPalyer_any_open_slot
              table_order two_waiting
              (fst (getGameInPendingSecondPalyer table_order two_waiting))
              (snd (getGameInPendingSecondPalyer table_order two_waiting)))
    as [H1 [_ H3]].
  - unfold store_two_waiting, store_alice_waiting.
    do 2 apply reachable_exec. apply reachable_initial. repeat split.
  - apply surjective_pairing.
  - split; [exact H1|].
    apply (H3 (mkGame 103 pending (Some 102) None 7 None None)); [|reflexivity].
    vm_compute. tauto.
Defined.

(** C7 (counterexample): Alice and Carol are both waiting, in the games 101
    and 103 they created.  Where the database lists the rows in table order
    the query offers Alice's game; where it lists them the other way round
    it offers Carol's, the newer one. *)
Lemma open_slot_depends_on_row_order :
  reachable table_order two_waiting /\
  fst (getGameInPendingSecondPalyer table_order two_waiting)
  = Ok (Some slot_101) /\
  fst (getGameInPendingSecondPalyer [1] two_waiting)
  = Ok (Some (mkIExtendedGame (mkGame 103 pending (Some 102) None 7 None None)
                              (Some carol) None)).
Proof.
  split; [|split; reflexivity].
  unfold store_two_waiting, store_alice_waiting.
  do 2 apply reachable_exec. apply reachable_initial. repeat split.
Qed.

(** C9 (amended): in every store the matchmaker reaches, a read of a game
    with [getExtendedGameById] (which takes no player: both players read
    through the same call) leaves the store alone and returns exactly the
    question rows of that game, each with its question; [getExtendedGameById]
    orders them in no way, so the list comes in the order the database lists
    the rows.  Sorted by [order], as [connectToGame] does before it answers,
    it is the list of the game's rows with the orders 0, 1, 2, ...  Once a
    game has question rows, no sequence of [createGame] and [connectToGame]
    calls changes them: every later read, whatever the row order, finds the
    game and returns the same rows, the same list once sorted. *)
Theorem game_questions_fixed_up_to_order scan scan1 s id game :
  reachable scan s ->
  fst (getExtendedGameById scan1 id s) = Ok (Some game) ->
  snd (getExtendedGameById scan1 id s) = s /\
  Permutation (gr_questions game) (questions_of_game s id) /\
  sort_by_order (gr_questions game) = questions_of_game s id /\
  map (fun q => order (gqr_row q)) (questions_of_game s id)
  = seq 0 (length (game_rows id s)) /\
  (game_rows id s <> [] ->
   forall cs scan2, exists game',
     getExtendedGameById scan2 id (exec_all scan cs s)
     = (Ok (Some game'), exec_all scan cs s) /\
     Permutation (gr_questions game') (gr_questions game) /\
     sort_by_order (gr_questions game') = sort_by_order (gr_questions game)).
Proof.
  intros Hreach Hread. pose proof (reachable_inv Hreach) as [_ [_ Hrows]].
  rewrite getExtendedGameById_run in Hread |- *. cbn [fst snd] in *.
  injection Hread as Hread.
  destruct (find_game id s) as [g|] eqn:Hg; [|discriminate].
  cbn [option_map] in Hread. injection Hread as <-.
  pose proof (find_some _ _ Hg) as [_ Hid]. apply Nat.eqb_eq in Hid.
  cbn [load_game gr_questions]. rewrite Hid.
  pose proof (@questions_of_game_orders s id Hrows) as Hord.
  assert (Hsort : forall sc t, questions_of_game t id = questions_of_game s id ->
                    sort_by_order (load_questions sc t id) = questions_of_game s id).
  { intros sc t Ht. apply sort_by_order_canonical with 0; [exact Hord|].
    rewrite <- Ht. apply load_questions_perm. }
  split; [reflexivity|]. split; [apply load_questions_perm|].
  split; [now apply Hsort|].
  split. { rewrite Hord. unfold questions_of_game. now rewrite length_map. }
  intros Hne cs scan2.
  destruct (@exec_all_questions scan cs s id Hne) as [Hq Hg']; [congruence|].
  destruct (find_game id (exec_all scan cs s)) as [g'|] eqn:Eg'; [|contradiction].
  exists (load_game scan2 (exec_all scan cs s) g').
  rewrite getExtendedGameById_run, Eg'. split; [reflexivity|].
  pose proof (find_some _ _ Eg') as [_ Hid']. apply Nat.eqb_eq in Hid'.
  cbn [load_game gr_questions]. rewrite Hid'. split.
  - transitivity (questions_of_game s id).
    + rewrite <- Hq. apply load_questions_perm.
    + symmetry. apply load_questions_perm.
  - rewrite !Hsort by (reflexivity || exact Hq). reflexivity.
Qed.

Lemma game_questions_fixed_up_to_order_witness :
  Permutation (load_questions [1] bob_joined 101)
              (questions_of_game bob_joined 101) /\
  sort_by_order (load_questions [1] bob_joined 101)
  = questions_of_game bob_joined 101 /\
  map (fun q => order (gqr_row q)) (questions_of_game bob_joined 101)
  = seq 0 5.
Proof.
  destruct (@game_questions_fixed_up_to_order
              table_order [1] bob_joined 101
              (load_game [1] bob_joined
                 (mkGame 101 active (Some 100) (Some 102) 7 (Some 7) None)))
    as [_ [H2 [H3 [H4 _]]]].
  - unfold store_bob_joined, store_alice_waiting.
    do 2 apply reachable_exec. apply reachable_initial. repeat split.
  - reflexivity.
  - exact (conj H2 (conj H3 H4)).
Defined.

(** C9 (counterexample): game 101 is active between Alice and Bob with its
    five question rows.  Read where the database lists the rows in table
    order, the question list carries the orders 0, 1, 2, 3, 4; read where it
    lists the second row first, the same call returns them as 1, 0, 2, 3, 4:
    another list, and not ordered by [order]. *)
Lemma getExtendedGameById_row_order_varies :
  reachable table_order bob_joined /\
  exists game1 game2,
    fst (getExtendedGameById table_order 101 bob_joined)
    = Ok (Some game1) /\
    fst (getExtendedGameById [1] 101 bob_joined) = Ok (Some game2) /\
    map (fun q => order (gqr_row q)) (gr_questions game1) = [0; 1; 2; 3; 4] /\
    map (fun q => order (gqr_row q)) (gr_questions game2) = [1; 0; 2; 3; 4] /\
    gr_questions game2 <> gr_questions game1.
Proof.
  split.
  - unfold store_bob_joined, store_alice_waiting.
    do 2 apply reachable_exec. apply reachable_initial. repeat split.
  - do 2 eexists. split; [reflexivity|]. split; [reflexivity|].
    split; [reflexivity|]. split; [reflexivity|].
    intros H. apply (f_equal (map (fun q => order (gqr_row q)))) in H.
    vm_compute in H. discriminate.
Qed.

(** X9: in every store the matchmaker reaches, a [createGame] call takes no
    waiting game off the market and puts exactly one on it: the slots that
    [getGameInPendingSecondPalyer] may answer with after the call are those
    it might answer with before, unchanged, and the game just created, with
    its creator as [userId]. *)
Theorem createGame_adds_one_open_slot scan userId s r s' slot :
  reachable scan s ->
  createGame scan userId s = (r, s') ->
  ((exists scan', fst (getGameInPendingSecondPalyer scan' s') = Ok (Some slot)) <->
   (exists scan', fst (getGameInPendingSecondPalyer scan' s) = Ok (Some slot)) \/
   slot = mkIExtendedGame
            (mkGame (S (nextId s)) pending (Some (nextId s)) None (clock s) None None)
            (Some userId) None).
Proof.
  intros Hreach Hrun. pose proof (reachable_refs_ok Hreach) as Hrefs.
  apply reachable_inv in Hreach. destruct Hreach as [_ [Hf _]].
  assert (Hs' : s' = store_created userId s).
  { rewrite <- (createGame_store scan userId s), Hrun. reflexivity. }
  subst s'. rewrite !open_slot_offered.
  assert (Hnew : first_player_userId (store_created userId s) (new_game s) = Some userId).
  { unfold first_player_userId. cbn [new_game firstPlayerProgressId].
    rewrite find_progress_created_new by exact Hf. reflexivity. }
  split.
  - intros [g [Hin [Hp ->]]]. cbn [store_created with_games games] in Hin.
    apply in_app_or in Hin. destruct Hin as [Hin|[<-|[]]].
    + left. exists g. rewrite (@first_player_userId_created userId s g Hrefs Hin). auto.
    + right. rewrite Hnew. reflexivity.
  - intros [[g [Hin [Hp ->]]]| ->].
    + exists g. split; [cbn; apply in_or_app; now left|]. split; [exact Hp|].
      now rewrite (@first_player_userId_created userId s g Hrefs Hin).
    + exists (new_game s). split; [cbn; apply in_or_app; right; now left|].
      split; [reflexivity|]. now rewrite Hnew.
Qed.

Lemma createGame_adds_one_open_slot_witness :
  exists scan',
    fst (getGameInPendingSecondPalyer
           scan' (snd (createGame table_order bob alice_waiting)))
    = Ok (Some slot_101).
Proof.
  refine (proj2 (@createGame_adds_one_open_slot
                   table_order bob alice_waiting
                   (fst (createGame table_order bob alice_waiting))
                   (snd (createGame table_order bob alice_waiting))
                   slot_101 _ (surjective_pairing _)) _).
  - unfold store_alice_waiting. apply reachable_exec, reachable_initial. repeat split.
  - left. exists table_order. reflexivity.
Defined.

(** * Instances

    The statements of the development at sample stores, the database listing
    rows in table order. *)




Lemma createGame_never_conflicts_witness :
  exists s',
    createGame table_order alice alice_waiting
    = (Ok (Some (mkGameView 103 None pending
                            (mkProgressView [] (mkPlayerView 102 "alice"%string) 0)
                            None 7 None None)),
       s') /\
    progresses s' = progresses alice_waiting ++ [mkProgress 102 alice 0 []] /\
    games s' = games alice_waiting
               ++ [mkGame 103 pending (Some 102) None 7 None None].
Proof.
  refine (@createGame_never_conflicts table_order alice alice_waiting
            (mkUser alice "alice"%string) _ _).
  - unfold store_alice_waiting. apply reachable_exec. apply reachable_initial.
    repeat split.
  - reflexivity.
Defined.

(** C3 (counterexample): Alice calls [createGame] and gets the pending game
    101; her immediately following [createGame] succeeds as well and leaves
    two pending games, both bound to a progress of hers. *)
Lemma createGame_twice_two_pending_games :
  succeeded (fst (createGame table_order alice store_empty)) /\
  succeeded (fst (createGame table_order alice (snd (createGame table_order alice store_empty)))) /\
  games (snd (createGame table_order alice (snd (createGame table_order alice store_empty))))
  = [mkGame 101 pending (Some 100) None 7 None None;
     mkGame 103 pending (Some 102) None 7 None None] /\
  progresses (snd (createGame table_order alice (snd (createGame table_order alice store_empty))))
  = [mkProgress 100 alice 0 []; mkProgress 102 alice 0 []].
Proof.
  split; [eexists; lazy; reflexivity|].
  split; [eexists; lazy; reflexivity|].
  split; reflexivity.
Qed.

Lemma connectToGame_success_activates_witness :
  In (mkProgress 102 bob 0 []) (progresses bob_joined) /\
  (exists g, find_game 101 bob_joined = Some g) /\
  (forall g, In g (games bob_joined) -> game_id g = 101 ->
             status g = active /\
             startGameDate g = Some 7 /\
             secondPlayerProgressId g = Some 102) /\
  length (game_rows 101 bob_joined) = 5 /\
  map order (game_rows 101 bob_joined) = seq 0 5.
Proof.
  destruct (@connectToGame_success_activates table_order bob slot_101 alice_waiting
              (mkGameView 101
                 (Some [mkQuestionView 103 "7 - 4 = ?"%string;
                        mkQuestionView 104 "3 * 3 = ?"%string;
                        mkQuestionView 105 "10 / 2 = ?"%string;
                        mkQuestionView 106 "6 + 7 = ?"%string;
                        mkQuestionView 107 "2 + 2 = ?"%string])
                 active
                 (mkProgressView [] (mkPlayerView 100 "alice"%string) 0)
                 (Some (mkProgressView [] (mkPlayerView 102 "bob"%string) 0))
                 7 (Some 7) None)
              bob_joined eq_refl) as [H1 [H2 [H3 [H4 [H5 _]]]]].
  exact (conj H1 (conj H2 (conj H3 (conj H4 H5)))).
Defined.

Lemma second_player_iff_started_witness :
  secondPlayerProgressId (mkGame 101 active (Some 100) (Some 102) 7 (Some 7) None) <> None
  <-> status (mkGame 101 active (Some 100) (Some 102) 7 (Some 7) None) = active \/
      status (mkGame 101 active (Some 100) (Some 102) 7 (Some 7) None) = finished.
Proof.
  refine (proj1 (@second_player_iff_started table_order bob_joined
                   (mkGame 101 active (Some 100) (Some 102) 7 (Some 7) None) _ _)).
  - unfold store_bob_joined, store_alice_waiting.
    do 2 apply reachable_exec. apply reachable_initial. repeat split.
  - vm_compute. left. reflexivity.
Defined.



Lemma connectToGame_allows_self_join_witness :
  exists g first,
    In g (games (snd (connectToGame table_order alice slot_101 alice_waiting))) /\
    game_id g = 101 /\
    status g = active /\
    firstPlayerProgressId g = Some first /\
    secondPlayerProgressId g = Some 102 /\
    first <> 102 /\
    option_map progress_userId
      (find_progress first (snd (connectToGame table_order alice slot_101 alice_waiting)))
    = Some alice /\
    option_map progress_userId
      (find_progress 102 (snd (connectToGame table_order alice slot_101 alice_waiting)))
    = Some alice.
Proof.
  refine (@connectToGame_allows_self_join table_order alice_waiting alice slot_101
            (mkGameView 101
               (Some [mkQuestionView 103 "7 - 4 = ?"%string;
                      mkQuestionView 104 "3 * 3 = ?"%string;
                      mkQuestionView 105 "10 / 2 = ?"%string;
                      mkQuestionView 106 "6 + 7 = ?"%string;
                      mkQuestionView 107 "2 + 2 = ?"%string])
               active
               (mkProgressView [] (mkPlayerView 100 "alice"%string) 0)
               (Some (mkProgressView [] (mkPlayerView 102 "alice"%string) 0))
               7 (Some 7) None)
            _ _ _ _ _).
  - unfold store_alice_waiting. apply reachable_exec. apply reachable_initial. repeat split.
  - reflexivity.
  - reflexivity.
  - apply surjective_pairing.
Defined.

(** C8 (counterexample): Alice created the pending game 101.  The open-slot
    query hands her own game back to her, and her [connectToGame] on it
    succeeds: game 101 ends up active with progress 100 as first and progress
    102 as second player, both progresses being Alice's. *)
Lemma alice_joins_her_own_game :
  fst (getGameInPendingSecondPalyer table_order alice_waiting) = Ok (Some slot_101) /\
  succeeded (fst (connectToGame table_order alice slot_101 alice_waiting)) /\
  games (snd (connectToGame table_order alice slot_101 alice_waiting))
  = [mkGame 101 active (Some 100) (Some 102) 7 (Some 7) None] /\
  find_progress 100 (snd (connectToGame table_order alice slot_101 alice_waiting))
  = Some (mkProgress 100 alice 0 []) /\
  find_progress 102 (snd (connectToGame table_order alice slot_101 alice_waiting))
  = Some (mkProgress 102 alice 0 []).
Proof.
  split; [reflexivity|]. split; [eexists; lazy; reflexivity|].
  repeat split.
Qed.

Lemma createGame_then_getById_witness :
  getById 101 alice_waiting
  = (Ok (Some (mkGame 101 pending (Some 100) None 7 None None)), alice_waiting).
Proof.
  refine (proj1 (@createGame_then_getById table_order alice store_empty _ alice_waiting _ _)).
  - apply reachable_initial. repeat split.
  - apply surjective_pairing.
Defined.


Lemma createGame_then_my_pending_game_witness :
  exists mine,
    getMyCurrentGameInPendingSecondPalyer alice alice_waiting
    = (Ok (Some mine), alice_waiting) /\
    In (ieg_game (pgu_slot mine)) (games alice_waiting) /\
    status (ieg_game (pgu_slot mine)) = pending /\
    player_userId alice_waiting (firstPlayerProgressId (ieg_game (pgu_slot mine)))
    = Some alice /\
    ieg_userId (pgu_slot mine) = Some alice /\
    ieg_questions (pgu_slot mine) = None.
Proof.
  refine (@createGame_then_my_pending_game table_order alice store_empty _ alice_waiting _ _).
  - apply reachable_initial. repeat split.
  - apply surjective_pairing.
Defined.

Lemma joined_game_no_longer_open_witness :
  fst (getGameInPendingSecondPalyer table_order two_waiting) = Ok (Some slot_101) /\
  forall slot,
    fst (getGameInPendingSecondPalyer table_order (snd (connectToGame table_order bob slot_101 two_waiting)))
    = Ok (Some slot) ->
    game_id (ieg_game slot) <> 101.
Proof.
  split; [reflexivity|].
  refine (proj1 (@joined_game_no_longer_open table_order bob slot_101 two_waiting _ _ _)).
  rewrite (surjective_pairing (connectToGame table_order bob slot_101 two_waiting)) at 1.
  f_equal. lazy. reflexivity.
Defined.


Lemma join_gives_both_players_an_active_game_witness :
  exists game,
    getActiveGameOfUser table_order alice bob_joined = (Ok (Some game), bob_joined) /\
    In (gr_game game) (games bob_joined) /\
    status (gr_game game) = active /\
    (played_by alice bob_joined (firstPlayerProgressId (gr_game game)) = true \/
     played_by alice bob_joined (secondPlayerProgressId (gr_game game)) = true).
Proof.
  refine (@join_gives_both_players_an_active_game table_order alice_waiting alice bob slot_101 _
            bob_joined _ _ _ _ alice _).
  - unfold store_alice_waiting. apply reachable_exec, reachable_initial. repeat split.
  - reflexivity.
  - reflexivity.
  - rewrite (surjective_pairing (connectToGame table_order bob slot_101 alice_waiting)) at 1.
    f_equal. lazy. reflexivity.
  - now left.
Defined.

Lemma connectToGame_succeeds_witness :
  exists first_progress qs,
    connectToGame table_order bob slot_101 alice_waiting
    = (Ok (Some (mkGameView
                   101 (Some qs) active
                   (mkProgressView [] (mkPlayerView (progress_id first_progress) "alice"%string)
                                   (score first_progress))
                   (Some (mkProgressView [] (mkPlayerView 102 "bob"%string) 0))
                   7 (Some 7) None)),
       store_activated bob 101 alice_waiting) /\
    Some 100 = Some (progress_id first_progress) /\
    find_progress (progress_id first_progress) alice_waiting = Some first_progress /\
    length qs = 5 /\
    Forall2 (fun r qv => qv_id qv = gq_id r /\
                         exists q, find_question (gq_questionId r) alice_waiting = Some q /\
                                   qv_body qv = body q)
            (game_rows 101 (store_activated bob 101 alice_waiting)) qs.
Proof.
  refine (@connectToGame_succeeds table_order alice_waiting slot_101 alice
            (mkUser alice "alice"%string) bob (mkUser bob "bob"%string) _ _ _ _ _ _ _).
  - unfold store_alice_waiting. apply reachable_exec, reachable_initial. repeat split.
  - reflexivity.
  - reflexivity.
  - reflexivity.
  - reflexivity.
  - reflexivity.
  - vm_compute. lia.
Defined.

Lemma createGame_keeps_active_games_witness :
  getActiveGameOfUser table_order alice (snd (createGame table_order carol bob_joined))
  = (fst (getActiveGameOfUser table_order alice bob_joined), snd (createGame table_order carol bob_joined)).
Proof.
  refine (@createGame_keeps_active_games table_order carol bob_joined _ _ alice _ _).
  - unfold store_bob_joined, store_alice_waiting.
    do 2 apply reachable_exec. apply reachable_initial. repeat split.
  - apply surjective_pairing.
Defined.

Lemma reachable_progress_linked_once_witness :
  NoDup (all_progress_links bob_joined).
Proof.
  refine (@reachable_progress_linked_once table_order bob_joined _).
  unfold store_bob_joined, store_alice_waiting.
  do 2 apply reachable_exec. apply reachable_initial. repeat split.
Defined.

Lemma read_between_assignment_and_update_witness :
  exists t game,
    attempt_run table_order 3 bob slot_101 AtCreateProgress alice_waiting
    = (AtUpdate (Some (mkProgress 102 bob 0 [])), t) /\
    getExtendedGameById table_order 101 t = (Ok (Some game), t) /\
    gr_game game = mkGame 101 pending (Some 100) None 7 None None /\
    length (gr_questions game) = 5 /\
    Permutation (map (fun q => order (gqr_row q)) (gr_questions game)) (seq 0 5).
Proof.
  refine (@read_between_assignment_and_update table_order bob slot_101 alice_waiting
            (mkGame 101 pending (Some 100) None 7 None None) _ _ _).
  - vm_compute. lia.
  - reflexivity.
  - reflexivity.
Defined.


